(** * Fact extraction helpers of the analyzer (src/analyzer/helper.cpp)

    A shallow embedding of the three emitters [output_decl],
    [output_enum_values] and [output_struct_relations], of the type graph
    walker [collect_nested_structs] behind the last one, and of the part of
    the clang/LLVM interface they consume.  The two globals of the file,
    the registry [existing_filenames] and the files written through
    [std::ofstream], form the state that every emitter threads. *)

From Stdlib Require Import ZArith String Ascii List Lia Sorted OrderedTypeEx.
From stdpp Require Import gmap strings list fin_maps pretty.

Set Warnings "-register-all,-clear-no-such-hyp".
#[local] Set Default Proof Using "Type".

(** ** The consumed clang interface *)

(** A [const RecordDecl *] is used by the code both to reach the declaration
    and as its identity (in [std::set<const RecordDecl *>]); it is modelled
    as an index into the table of record declarations of the AST. *)
Abbreviation RecordId := nat (only parsing).

(** [clang::QualType], as far as the walker inspects it.  Typedefs cannot be
    cyclic, hence a [TypedefType] carries its declaration (name and
    underlying type) in place; records can, hence a [RecordType] carries the
    identity of its declaration.  Qualifiers are transparent to every
    inspection the code performs and are left out. *)
Inductive QualType : Type :=
| OtherType
| PointerType (pointee : QualType)
| ArrayType (element : QualType)
| ElaboratedType (named : QualType)
| TypedefType (aliasName : string) (underlying : QualType)
| RecordType (decl : RecordId).

(** [QualType::getCanonicalType]: the structurally identical type with the
    sugar (typedefs, elaborated type specifiers) removed at every level. *)
Fixpoint getCanonicalType (qt : QualType) : QualType :=
  match qt with
  | OtherType => OtherType
  | PointerType pointee => PointerType (getCanonicalType pointee)
  | ArrayType element => ArrayType (getCanonicalType element)
  | ElaboratedType named => getCanonicalType named
  | TypedefType _ underlying => getCanonicalType underlying
  | RecordType decl => RecordType decl
  end.

(** [Type::getAs<PointerType>]: looks through sugar for a pointer type and
    gives its pointee. *)
Fixpoint getAs_PointerType (qt : QualType) : option QualType :=
  match qt with
  | PointerType pointee => Some pointee
  | ElaboratedType named => getAs_PointerType named
  | TypedefType _ underlying => getAs_PointerType underlying
  | _ => None
  end.

(** [Type::getAsArrayTypeUnsafe]: the same for array types, giving the
    element type. *)
Fixpoint getAsArrayTypeUnsafe (qt : QualType) : option QualType :=
  match qt with
  | ArrayType element => Some element
  | ElaboratedType named => getAsArrayTypeUnsafe named
  | TypedefType _ underlying => getAsArrayTypeUnsafe underlying
  | _ => None
  end.

(** [Type::getAs<ElaboratedType>]: the canonical type of no type is an
    elaborated one, so only a type that is directly elaborated answers. *)
Definition getAs_ElaboratedType (qt : QualType) : option QualType :=
  match qt with
  | ElaboratedType named => Some named
  | _ => None
  end.

(** [Type::getAs<TypedefType>]: removes sugar until it reaches a typedef or
    a type that is not sugar; gives the name of the typedef declaration and
    its underlying type. *)
Fixpoint getAs_TypedefType (qt : QualType) : option (string * QualType) :=
  match qt with
  | TypedefType aliasName underlying => Some (aliasName, underlying)
  | ElaboratedType named => getAs_TypedefType named
  | _ => None
  end.

(** [Type::getAs<RecordType>]: looks through sugar for a record type and
    gives its declaration. *)
Fixpoint getAs_RecordType (qt : QualType) : option RecordId :=
  match qt with
  | RecordType decl => Some decl
  | ElaboratedType named => getAs_RecordType named
  | TypedefType _ underlying => getAs_RecordType underlying
  | _ => None
  end.

(** A [SourceLocation] together with what the [SourceManager] answers about
    it: the real path of its file entry when it has one, its printed form
    (used when it has none) and its spelling line number ([unsigned]). *)
Record SourceLocation : Type := {
  isInvalid : bool;
  tryGetRealPathName : option string;
  printToString : string;
  getSpellingLineNumber : N
}.

(** [clang::NamedDecl].  [getSourceText] is the answer of
    [Lexer::getSourceText] on the token range of the declaration, [None]
    when it raises its [invalid] flag. *)
Record NamedDecl : Type := {
  getNameAsString : string;
  getBeginLoc : SourceLocation;
  getEndLoc : SourceLocation;
  getSourceText : option string
}.

(** [clang::RecordDecl]: a named declaration with the name of the typedef
    that names it when it is anonymous, its definition, and the types of
    its fields. *)
Record RecordDecl : Type := {
  record_base : NamedDecl;
  getTypedefNameForAnonDecl : option string;
  getDefinition : option RecordId;
  fields : list QualType
}.
Coercion record_base : RecordDecl >-> NamedDecl.

(** [llvm::APSInt]: [BitWidth] bits held in [VAL] ([0 <= VAL < 2^BitWidth])
    and the flag telling how to read them. *)
Record APSInt : Type := {
  BitWidth : N;
  IsUnsigned : bool;
  VAL : Z
}.

(** [clang::EnumConstantDecl] and [clang::EnumDecl]. *)
Record EnumConstantDecl : Type := {
  constant_base : NamedDecl;
  getInitVal : APSInt
}.
Coercion constant_base : EnumConstantDecl >-> NamedDecl.

Record EnumDecl : Type := {
  enum_base : NamedDecl;
  enumerators : list EnumConstantDecl
}.
Coercion enum_base : EnumDecl >-> NamedDecl.

(** The record declarations of the AST, by identity. *)
Abbreviation AST := (gmap nat RecordDecl) (only parsing).

Definition no_location : SourceLocation :=
  {| isInvalid := true; tryGetRealPathName := None;
     printToString := "<invalid loc>"; getSpellingLineNumber := 0%N |}.

(** An identity outside the table is read as a declaration that has no name,
    no definition and no field: it contributes nothing to any traversal. *)
Definition no_record : RecordDecl :=
  {| record_base := {| getNameAsString := ""; getBeginLoc := no_location;
                       getEndLoc := no_location; getSourceText := None |};
     getTypedefNameForAnonDecl := None;
     getDefinition := None;
     fields := [] |}.

#[global] Instance RecordDecl_inhabited : Inhabited RecordDecl :=
  populate no_record.

(** ** [llvm::APInt::getSExtValue] *)

(** The conversion of a 64-bit pattern to [int64_t]. *)
Definition to_int64 (x : Z) : Z :=
  let r := (x mod 2 ^ 64)%Z in
  if (r <? 2 ^ 63)%Z then r else (r - 2 ^ 64)%Z.

(** [llvm::SignExtend64(X, B)]: [int64_t(X << (64 - B)) >> (64 - B)]. *)
Definition SignExtend64 (X : Z) (B : N) : Z :=
  Z.shiftr (to_int64 (Z.shiftl X (64 - Z.of_N B))) (64 - Z.of_N B).

(** A single word value is sign extended from its width; a wider one gives
    its low word read as [int64_t]. *)
Definition getSExtValue (v : APSInt) : Z :=
  if (BitWidth v <=? 64)%N then SignExtend64 (VAL v) (BitWidth v)
  else to_int64 (VAL v).

(** The [APSInt] of width [w] that holds the integer [v]. *)
Definition APSInt_of_Z (w : N) (unsigned : bool) (v : Z) : APSInt :=
  {| BitWidth := w; IsUnsigned := unsigned; VAL := (v mod 2 ^ Z.of_N w)%Z |}.

(** The integer that the bits of an [APSInt] stand for in two's complement
    at its width. *)
Definition signed_value (v : APSInt) : Z :=
  if (VAL v <? 2 ^ (Z.of_N (BitWidth v) - 1))%Z then VAL v
  else (VAL v - 2 ^ Z.of_N (BitWidth v))%Z.

(** ** [nlohmann::json] *)

(** The values the emitters build.  An object is a [std::map]: its members
    are kept in key order, one per key. *)
Inductive json : Type :=
| json_null
| json_string (s : string)
| json_integer (n : Z)
| json_array (items : list json)
| json_object (members : list (string * json)).

Fixpoint object_set (key : string) (v : json) (members : list (string * json))
  : list (string * json) :=
  match members with
  | [] => [(key, v)]
  | (k, x) :: rest =>
      match String.compare key k with
      | Lt => (key, v) :: members
      | Eq => (key, v) :: rest
      | Gt => (k, x) :: object_set key v rest
      end
  end.

Fixpoint object_get (key : string) (members : list (string * json))
  : option json :=
  match members with
  | [] => None
  | (k, x) :: rest => if decide (k = key) then Some x else object_get key rest
  end.

(** [j[key] = v]: a null value becomes an object first.  On any other
    non-object value nlohmann throws; no emitter does that. *)
Definition json_set (key : string) (v : json) (j : json) : json :=
  match j with
  | json_null => json_object [(key, v)]
  | json_object members => json_object (object_set key v members)
  | _ => j
  end.

Definition json_get (key : string) (j : json) : option json :=
  match j with
  | json_object members => object_get key members
  | _ => None
  end.

(** [arr.push_back(v)] on an array. *)
Definition json_push_back (v : json) (arr : json) : json :=
  match arr with
  | json_null => json_array [v]
  | json_array items => json_array (items ++ [v])%list
  | _ => arr
  end.

(** [j.dump()] decodes every string of the value, keys included, as UTF-8
    and throws [type_error] 316 on a byte sequence that is not well formed
    (the default, strict, error handler).  [valid_utf8] accepts the well
    formed sequences: one byte below [0x80]; [C2..DF] and one continuation
    byte [80..BF]; [E0..EF] and two, [F0..F4] and three, the first of them
    narrowed after [E0] (no overlong form), [ED] (no surrogate), [F0] and
    [F4] (at most [U+10FFFF]). *)
Definition byte_in (c : ascii) (lo hi : N) : bool :=
  ((lo <=? N_of_ascii c) && (N_of_ascii c <=? hi))%N.

Fixpoint valid_utf8 (s : string) : bool :=
  match s with
  | EmptyString => true
  | String c0 rest =>
      if byte_in c0 0 127 then valid_utf8 rest
      else if byte_in c0 194 223 then
        match rest with
        | String c1 rest1 => byte_in c1 128 191 && valid_utf8 rest1
        | _ => false
        end
      else if byte_in c0 224 239 then
        match rest with
        | String c1 (String c2 rest2) =>
            (if byte_in c0 224 224 then byte_in c1 160 191
             else if byte_in c0 237 237 then byte_in c1 128 159
             else byte_in c1 128 191)
            && byte_in c2 128 191 && valid_utf8 rest2
        | _ => false
        end
      else if byte_in c0 240 244 then
        match rest with
        | String c1 (String c2 (String c3 rest3)) =>
            (if byte_in c0 240 240 then byte_in c1 144 191
             else if byte_in c0 244 244 then byte_in c1 128 143
             else byte_in c1 128 191)
            && byte_in c2 128 191 && byte_in c3 128 191 && valid_utf8 rest3
        | _ => false
        end
      else false
  end.

(** [j.dump()] returns, it does not throw. *)
Fixpoint dump_ok (j : json) : bool :=
  match j with
  | json_null => true
  | json_string s => valid_utf8 s
  | json_integer _ => true
  | json_array items => forallb dump_ok items
  | json_object members =>
      forallb (fun member : string * json =>
                 let (key, v) := member in valid_utf8 key && dump_ok v)
              members
  end.

(** ** [std::set<std::string>] *)

(** A [std::set<std::string>] is kept as the list of its elements in
    iteration order, that is in increasing order of [std::string]'s
    [operator<] (bytewise lexicographic, [String.compare]). *)
Fixpoint set_insert (x : string) (s : list string) : list string :=
  match s with
  | [] => [x]
  | y :: rest =>
      match String.compare x y with
      | Lt => x :: s
      | Eq => s
      | Gt => y :: set_insert x rest
      end
  end.

Definition string_lt (a b : string) : Prop := String.compare a b = Lt.

(** ** The shared state: the registry and the output files *)

(** A line of an output file is what [j.dump()] printed before [std::endl];
    [dump] is injective and prints no line break, so a file is kept as the
    list of the values dumped into it.  [unopenable] holds the names on
    which [std::ofstream::open] fails (no such directory, the empty name, no
    permission): the stream is then in its failed state, and the code, which
    never tests it, goes on. *)
Record State : Type := {
  existing_filenames : gset string;
  output_files : gmap string (list json);
  unopenable : gset string
}.

(** [output_file.open(name, std::ios_base::app)]: creates the file when it
    does not exist, leaves it as it is otherwise; does nothing when the
    open fails. *)
Definition open_app (name : string) (σ : State) : State :=
  if decide (name ∈ unopenable σ) then σ
  else
    {| existing_filenames := existing_filenames σ;
       output_files :=
         <[name := default [] (output_files σ !! name)]> (output_files σ);
       unopenable := unopenable σ |}.

(** [output_file << j.dump() << std::endl] followed by flush and close, on a
    stream opened on [name] for appending.  On a stream whose open failed
    nothing is written.  When [dump] throws, the file has been opened and no
    line is written; the exception leaves the emitter, and the state given
    is the one it leaves behind. *)
Definition write_line (name : string) (j : json) (σ : State) : State :=
  if decide (name ∈ unopenable σ) then σ
  else if dump_ok j then
    {| existing_filenames := existing_filenames σ;
       output_files :=
         <[name := (default [] (output_files σ !! name) ++ [j])%list]>
           (output_files σ);
       unopenable := unopenable σ |}
  else open_app name σ.

(** [existing_filenames.insert(key_name)]. *)
Definition claim (key_name : string) (σ : State) : State :=
  {| existing_filenames := {[key_name]} ∪ existing_filenames σ;
     output_files := output_files σ;
     unopenable := unopenable σ |}.

(** ** [get_decl_code] *)

Definition get_decl_code (decl : NamedDecl) : string :=
  if negb (isInvalid (getBeginLoc decl)) && negb (isInvalid (getEndLoc decl)) then
    match getSourceText decl with
    | Some text => text
    | None => ""
    end
  else "".

(** The string each emitter builds in [filenameWithLine]: the real path of
    the file entry, or the printed location when there is none, then a
    colon and the spelling line number. *)
Definition filenameWithLine (beginLoc : SourceLocation) : string :=
  match tryGetRealPathName beginLoc with
  | Some path => path
  | None => printToString beginLoc
  end +:+ ":" +:+ pretty (getSpellingLineNumber beginLoc).

(** ** [output_decl] *)

(** [key_name] of [output_decl]. *)
Definition decl_key (filename name output_file_name alias_name : string) : string :=
  filename +:+ "+" +:+ name +:+ "+" +:+ output_file_name +:+ "+" +:+ alias_name.

Definition output_decl (decl : NamedDecl) (output_file_name : string)
    (is_typedef : bool) (alias_name : string) (σ : State) : State :=
  let name := getNameAsString decl in
  let sourceCode := get_decl_code decl in
  let σ := open_app output_file_name σ in
  let j := json_set "name" (json_string name) json_null in
  let j := json_set "source" (json_string sourceCode) j in
  let filename := filenameWithLine (getBeginLoc decl) in
  let key_name := decl_key filename name output_file_name alias_name in
  if decide (key_name ∈ existing_filenames σ) then σ
  else
    let σ := claim key_name σ in
    let j := json_set "filename" (json_string filename) j in
    let j := if is_typedef then json_set "alias" (json_string alias_name) j else j in
    write_line output_file_name j σ.

(** ** [output_enum_values] *)

(** [key_name] of [output_enum_values] and of [output_struct_relations]. *)
Definition fact_key (filename name output_file_name : string) : string :=
  filename +:+ "+" +:+ name +:+ "+" +:+ output_file_name.

(** The loop over [decl->enumerators()]. *)
Definition enum_values (ecds : list EnumConstantDecl) : json :=
  foldl (fun (values : json) (ecd : EnumConstantDecl) =>
           json_set (getNameAsString ecd) (json_integer (getSExtValue (getInitVal ecd))) values)
        (json_object []) ecds.

Definition output_enum_values (decl : EnumDecl) (output_file_name : string)
    (σ : State) : State :=
  let enumName := getNameAsString decl in
  if decide (enumName = "") then σ
  else
    let filename := filenameWithLine (getBeginLoc decl) in
    let key_name := fact_key filename enumName output_file_name in
    if decide (key_name ∈ existing_filenames σ) then σ
    else
      let σ := claim key_name σ in
      let values := enum_values (enumerators decl) in
      let j := json_set enumName values json_null in
      write_line output_file_name j σ.

(** ** [collect_nested_structs] *)

(** The two sets the walker receives by reference. *)
Record Walk : Type := {
  nested : list string;
  visited : gset nat
}.

Definition insert_nested (name : string) (w : Walk) : Walk :=
  {| nested := set_insert name (nested w); visited := visited w |}.

Definition insert_visited (def : RecordId) (w : Walk) : Walk :=
  {| nested := nested w; visited := {[def]} ∪ visited w |}.

(** [for (const FieldDecl *field : def->fields()) visit(field->getType())],
    the sets going from one field to the next. *)
Definition for_fields (visit : QualType → Walk → option Walk)
    (field_types : list QualType) (w : Walk) : option Walk :=
  foldl (fun (acc : option Walk) (qt : QualType) => acc ≫= visit qt) (Some w) field_types.

(** The recursion follows the record graph of the AST, which may be cyclic:
    [fuel] bounds the depth of the calls, and [None] says that it ran out
    ([walk_fuel] below is a depth that always suffices). *)
Fixpoint collect_nested_structs (ast : AST) (fuel : nat) (qt : QualType)
    (w : Walk) : option Walk :=
  match fuel with
  | O => None
  | S fuel =>
    let qt := getCanonicalType qt in
    match getAs_PointerType qt with
    | Some pointee => collect_nested_structs ast fuel pointee w
    | None =>
    match getAsArrayTypeUnsafe qt with
    | Some element => collect_nested_structs ast fuel element w
    | None =>
    match getAs_ElaboratedType qt with
    | Some named => collect_nested_structs ast fuel named w
    | None =>
    match getAs_TypedefType qt with
    | Some (aliasName, underlying) =>
        match getAs_RecordType underlying with
        | Some rt =>
            let rd : RecordDecl := ast !!! rt in
            let name :=
              if decide (aliasName = "") then getNameAsString rd else aliasName in
            let name :=
              if decide (name = "") then
                match getTypedefNameForAnonDecl rd with
                | Some anon => anon
                | None => name
                end
              else name in
            let w := if decide (name = "") then w else insert_nested name w in
            match getDefinition rd with
            | Some def =>
                if decide (def ∈ visited w) then Some w
                else for_fields (collect_nested_structs ast fuel)
                       (fields (ast !!! def)) (insert_visited def w)
            | None => Some w
            end
        | None => collect_nested_structs ast fuel underlying w
        end
    | None =>
    match getAs_RecordType qt with
    | Some rt =>
        let rd : RecordDecl := ast !!! rt in
        let name := getNameAsString rd in
        let name :=
          if decide (name = "") then
            match getTypedefNameForAnonDecl rd with
            | Some anon => anon
            | None => name
            end
          else name in
        let w := if decide (name = "") then w else insert_nested name w in
        match getDefinition rd with
        | Some def =>
            if decide (def ∈ visited w) then Some w
            else for_fields (collect_nested_structs ast fuel)
                   (fields (ast !!! def)) (insert_visited def w)
        | None => Some w
        end
    | None => Some w
    end end end end end
  end.

(** ** [output_struct_relations] *)

(** The name the relation is reported under: the explicit one, else the
    name of the record, else the name of the typedef of an anonymous
    record. *)
Definition resolve_structName (rd : RecordDecl) (struct_name : string) : string :=
  if decide (struct_name = "") then
    let structName := getNameAsString rd in
    if decide (structName = "") then
      match getTypedefNameForAnonDecl rd with
      | Some anon => anon
      | None => structName
      end
    else structName
  else struct_name.

Definition output_struct_relations (ast : AST) (fuel : nat) (decl : RecordId)
    (output_file_name struct_name : string) (σ : State) : option State :=
  let rd : RecordDecl := ast !!! decl in
  let structName := resolve_structName rd struct_name in
  if decide (structName = "") then Some σ
  else
    let filename := filenameWithLine (getBeginLoc rd) in
    let key_name := fact_key filename structName output_file_name in
    if decide (key_name ∈ existing_filenames σ) then Some σ
    else
      let σ := claim key_name σ in
      let w := {| nested := []; visited := {[decl]} |} in
      w ← for_fields (collect_nested_structs ast fuel) (fields rd) w;
      let arr := foldl (fun (arr : json) (name : string) => json_push_back (json_string name) arr)
                       (json_array []) (nested w) in
      let j := json_set structName arr json_null in
      Some (write_line output_file_name j σ).

(** ** Bounds on the depth of the walk *)

Fixpoint type_size (qt : QualType) : nat :=
  match qt with
  | OtherType | RecordType _ => 1
  | PointerType t | ArrayType t | ElaboratedType t | TypedefType _ t =>
      S (type_size t)
  end.

(** One more than the size of the largest field type of the AST. *)
Definition ast_width (ast : AST) : nat :=
  S (max_list (type_size <$> mjoin (fields ∘ snd <$> map_to_list ast))).

(** A depth that suffices for a walk that starts at the type [qt]. *)
Definition walk_fuel (ast : AST) (qt : QualType) : nat :=
  S (type_size qt + size (dom ast) * ast_width ast).

(** A depth that suffices for the walks started from the fields of a record
    of the AST. *)
Definition relations_fuel (ast : AST) : nat :=
  S (size (dom ast)) * ast_width ast.

(** The body of the last branch of [collect_nested_structs] (the type is
    directly a record type), with the recursive call as a parameter: the
    form every canonical record type takes, see
    [collect_nested_structs_unfold]. *)
Definition visit_record (ast : AST) (visit : QualType → Walk → option Walk)
    (rt : RecordId) (w : Walk) : option Walk :=
  let rd : RecordDecl := ast !!! rt in
  let name := getNameAsString rd in
  let name :=
    if decide (name = "") then
      match getTypedefNameForAnonDecl rd with
      | Some anon => anon
      | None => name
      end
    else name in
  let w := if decide (name = "") then w else insert_nested name w in
  match getDefinition rd with
  | Some def =>
      if decide (def ∈ visited w) then Some w
      else for_fields visit (fields (ast !!! def)) (insert_visited def w)
  | None => Some w
  end.

(** The records of the AST that a walk has not expanded yet. *)
Definition unvisited (ast : AST) (w : Walk) : nat :=
  size (dom ast ∖ visited w).


(** ** Shapes of inputs that the statements below speak about *)

(** A pointer to the record [a], through one or more pointer levels. *)
Fixpoint pointer_chain_to (a : RecordId) (qt : QualType) : Prop :=
  match qt with
  | PointerType (RecordType decl) => decl = a
  | PointerType pointee => pointer_chain_to a pointee
  | _ => False
  end.

(** The type is such a pointer once its sugar is removed. *)
Definition points_to (a : RecordId) (qt : QualType) : Prop :=
  pointer_chain_to a (getCanonicalType qt).

(** The separator of the keys occurs in the string. *)
Fixpoint has_plus (s : string) : bool :=
  match s with
  | EmptyString => false
  | String c rest => if decide (c = "+"%char) then true else has_plus rest
  end.

(** The bits of the initializer fit its width, which is at most a word. *)
Definition single_word (v : APSInt) : Prop :=
  (0 < BitWidth v ≤ 64)%N ∧ (0 ≤ VAL v < 2 ^ Z.of_N (BitWidth v))%Z.

(** The relation fact [{record_name: [names...]}]. *)
Definition relation_fact (record_name : string) (names : list string) : json :=
  json_object [(record_name, json_array (json_string <$> names))].

(** The state [σ'] extends [σ]: the registry kept its keys and every file
    kept its lines, in front of those that were added. *)
Definition extends (σ σ' : State) : Prop :=
  existing_filenames σ ⊆ existing_filenames σ'
  ∧ ∀ name : string,
      default [] (output_files σ !! name)
      `prefix_of` default [] (output_files σ' !! name).

(** ** Concrete declarations *)

Definition location (path : string) (line : N) : SourceLocation :=
  {| isInvalid := false; tryGetRealPathName := Some path;
     printToString := path; getSpellingLineNumber := line |}.

Definition declared (name : string) (line : N) (text : string) : NamedDecl :=
  {| getNameAsString := name;
     getBeginLoc := location "/src/types.h" line;
     getEndLoc := location "/src/types.h" line;
     getSourceText := Some text |}.

Definition empty_state : State :=
  {| existing_filenames := ∅; output_files := ∅; unopenable := ∅ |}.

(** [struct A { struct A *next; };] *)
Definition self_A : RecordDecl :=
  {| record_base := declared "A" 1 "struct A { struct A *next; }";
     getTypedefNameForAnonDecl := None;
     getDefinition := Some 0;
     fields := [PointerType (ElaboratedType (RecordType 0))] |}.

Definition ast_self : AST := {[ 0 := self_A ]}.

(** [struct A { struct B *b; }; struct B { struct A *a; };] *)
Definition mutual_A : RecordDecl :=
  {| record_base := declared "A" 2 "struct A { struct B *b; }";
     getTypedefNameForAnonDecl := None;
     getDefinition := Some 0;
     fields := [PointerType (RecordType 1)] |}.

Definition mutual_B : RecordDecl :=
  {| record_base := declared "B" 3 "struct B { struct A *a; }";
     getTypedefNameForAnonDecl := None;
     getDefinition := Some 1;
     fields := [PointerType (RecordType 0)] |}.

Definition ast_mutual : AST := <[ 0 := mutual_A ]> {[ 1 := mutual_B ]}.

(** [struct Foo { int x; }; typedef struct Foo Bar;
     typedef struct { int x; int y; } Point;
     struct R { Bar f; Point p; };] *)
Definition ast_alias : AST :=
  <[ 0 := {| record_base := declared "Foo" 1 "struct Foo { int x; }";
             getTypedefNameForAnonDecl := None;
             getDefinition := Some 0;
             fields := [OtherType] |} ]>
  (<[ 1 := {| record_base := declared "" 3 "struct { int x; int y; }";
              getTypedefNameForAnonDecl := Some "Point";
              getDefinition := Some 1;
              fields := [OtherType; OtherType] |} ]>
  {[ 2 := {| record_base := declared "R" 4 "struct R { Bar f; Point p; }";
             getTypedefNameForAnonDecl := None;
             getDefinition := Some 2;
             fields := [TypedefType "Bar" (ElaboratedType (RecordType 0));
                        TypedefType "Point" (RecordType 1)] |} ]}).

(** [struct Z { struct M *m; struct B *b; struct M *again; };] with empty
    [struct M] and [struct B]: the fields name the records out of order and
    one of them twice. *)
Definition ast_unordered : AST :=
  <[ 0 := {| record_base := declared "Z" 1 "struct Z { ... }";
             getTypedefNameForAnonDecl := None;
             getDefinition := Some 0;
             fields := [PointerType (RecordType 1); PointerType (RecordType 2);
                        PointerType (RecordType 1)] |} ]>
  (<[ 1 := {| record_base := declared "M" 5 "struct M { }";
              getTypedefNameForAnonDecl := None;
              getDefinition := Some 1;
              fields := [] |} ]>
  {[ 2 := {| record_base := declared "B" 6 "struct B { }";
             getTypedefNameForAnonDecl := None;
             getDefinition := Some 2;
             fields := [] |} ]}).

(** [typedef struct { int x; } *Handle;]: an anonymous record that no
    typedef names. *)
Definition ast_unnamed : AST :=
  {[ 0 := {| record_base := declared "" 9 "struct { int x; }";
             getTypedefNameForAnonDecl := None;
             getDefinition := Some 0;
             fields := [OtherType] |} ]}.

(** [enum Level { LOW = -1, HIGH = 1 };], the enumerators of type [int]. *)
Definition enum_level : EnumDecl :=
  {| enum_base := declared "Level" 7 "enum Level { LOW = -1, HIGH = 1 }";
     enumerators :=
       [ {| constant_base := declared "LOW" 7 "LOW = -1";
            getInitVal := APSInt_of_Z 32 false (-1) |};
         {| constant_base := declared "HIGH" 7 "HIGH = 1";
            getInitVal := APSInt_of_Z 32 false 1 |} ] |}.

(** [enum { X };]: an enum without a name. *)
Definition enum_unnamed : EnumDecl :=
  {| enum_base := declared "" 8 "enum { X }";
     enumerators :=
       [ {| constant_base := declared "X" 8 "X";
            getInitVal := APSInt_of_Z 32 false 0 |} ] |}.

(** ** The facts *)

(** The value [j] that [output_decl] builds (lines 51 to 85). *)
Definition decl_fact (decl : NamedDecl) (is_typedef : bool)
    (alias_name : string) : json :=
  let j := json_set "name" (json_string (getNameAsString decl)) json_null in
  let j := json_set "source" (json_string (get_decl_code decl)) j in
  let j := json_set "filename"
             (json_string (filenameWithLine (getBeginLoc decl))) j in
  if is_typedef then json_set "alias" (json_string alias_name) j else j.

(** The value [j] that [output_enum_values] builds (lines 119 to 126). *)
Definition enum_fact (decl : EnumDecl) : json :=
  json_set (getNameAsString decl) (enum_values (enumerators decl)) json_null.

(** The integer an [APSInt] holds, read as its flag says: the bits as they
    are when it is unsigned, in two's complement when it is signed. *)
Definition APSInt_value (v : APSInt) : Z :=
  if IsUnsigned v then VAL v else signed_value v.

(** ** What the relation fact is about *)

(** The record type that a type leads to, through pointers, arrays and
    sugar. *)
Fixpoint record_of (qt : QualType) : option RecordId :=
  match qt with
  | RecordType decl => Some decl
  | PointerType t | ArrayType t | ElaboratedType t | TypedefType _ t =>
      record_of t
  | OtherType => None
  end.

(** The name of a record as both the walker and the relation emitter
    resolve it when no explicit name is given. *)
Definition record_name (rd : RecordDecl) : string := resolve_structName rd "".

(** The records that a type reaches in the AST: the one it leads to, and
    those that the fields of its definition reach. *)
Inductive reaches (ast : AST) : QualType → RecordId → Prop :=
| reaches_here (qt : QualType) (rt : RecordId) :
    record_of qt = Some rt → reaches ast qt rt
| reaches_field (qt : QualType) (rt def : RecordId) (field : QualType)
    (t : RecordId) :
    record_of qt = Some rt →
    getDefinition (ast !!! rt) = Some def →
    field ∈ fields (ast !!! def) →
    reaches ast field t →
    reaches ast qt t.

(** The sets [w] account for the type: the name of the record it leads to
    is in [nested] unless it is empty, and its definition is in
    [visited]. *)
Definition covered (ast : AST) (w : Walk) (qt : QualType) : Prop :=
  ∀ rt, record_of qt = Some rt →
    (record_name (ast !!! rt) ≠ "" → record_name (ast !!! rt) ∈ nested w)
    ∧ (∀ def, getDefinition (ast !!! rt) = Some def → def ∈ visited w).

(** What a walk that returned has done: it kept what the sets held, and
    it accounts for every field of every definition it added to the visited
    set. *)
Definition walked (ast : AST) (w w' : Walk) : Prop :=
  nested w ⊆ nested w' ∧ visited w ⊆ visited w'
  ∧ ∀ def, def ∈ visited w' → def ∉ visited w →
      ∀ f, f ∈ fields (ast !!! def) → covered ast w' f.

(** Two ASTs that differ at most in the order of the fields of their
    records. *)
Definition same_up_to_field_order (ast1 ast2 : AST) : Prop :=
  ∀ decl : RecordId,
    record_base (ast1 !!! decl) = record_base (ast2 !!! decl)
    ∧ getTypedefNameForAnonDecl (ast1 !!! decl)
      = getTypedefNameForAnonDecl (ast2 !!! decl)
    ∧ getDefinition (ast1 !!! decl) = getDefinition (ast2 !!! decl)
    ∧ fields (ast1 !!! decl) ≡ₚ fields (ast2 !!! decl).

(** ** Counting lines and keys *)


(** ** Location strings *)

Fixpoint has_colon (s : string) : bool :=
  match s with
  | EmptyString => false
  | String c rest => if decide (c = ":"%char) then true else has_colon rest
  end.

(** The part of the location string in front of the line number. *)
Definition location_file (beginLoc : SourceLocation) : string :=
  match tryGetRealPathName beginLoc with
  | Some path => path
  | None => printToString beginLoc
  end.

(** The keys of the members of an object, in their order. *)
Definition object_keys (j : json) : list string :=
  match j with
  | json_object members => fst <$> members
  | _ => []
  end.

(** ** More concrete declarations *)

(** [struct Inner; struct R { struct { struct Inner *p; } u; int n; };]:
    an anonymous member record that no typedef names, and a record that is
    declared but not defined. *)
Definition ast_opaque : AST :=
  <[ 0 := {| record_base := declared "R" 2 "struct R { ... }";
             getTypedefNameForAnonDecl := None;
             getDefinition := Some 0;
             fields := [ElaboratedType (RecordType 1); OtherType] |} ]>
  (<[ 1 := {| record_base := declared "" 2 "struct { struct Inner *p; }";
              getTypedefNameForAnonDecl := None;
              getDefinition := Some 1;
              fields := [PointerType (ElaboratedType (RecordType 2))] |} ]>
  {[ 2 := {| record_base := declared "Inner" 1 "struct Inner";
             getTypedefNameForAnonDecl := None;
             getDefinition := None;
             fields := [] |} ]}).

(** [ast_unordered] with the fields of [struct Z] in another order. *)
Definition ast_reordered : AST :=
  <[ 0 := {| record_base := declared "Z" 1 "struct Z { ... }";
             getTypedefNameForAnonDecl := None;
             getDefinition := Some 0;
             fields := [PointerType (RecordType 2); PointerType (RecordType 1);
                        PointerType (RecordType 1)] |} ]>
  (<[ 1 := {| record_base := declared "M" 5 "struct M { }";
              getTypedefNameForAnonDecl := None;
              getDefinition := Some 1;
              fields := [] |} ]>
  {[ 2 := {| record_base := declared "B" 6 "struct B { }";
             getTypedefNameForAnonDecl := None;
             getDefinition := Some 2;
             fields := [] |} ]}).

(** A declaration whose source range the lexer rejects. *)
Definition decl_without_text : NamedDecl :=
  {| getNameAsString := "f";
     getBeginLoc := location "/src/types.h" 11;
     getEndLoc := no_location;
     getSourceText := None |}.

(** [enum Flags { HIGH_BIT = 0x80000000 };]: the enumerator does not fit
    [int] and has the type [unsigned int]. *)
Definition enum_flags : EnumDecl :=
  {| enum_base := declared "Flags" 12 "enum Flags { HIGH_BIT = 0x80000000 }";
     enumerators :=
       [ {| constant_base := declared "HIGH_BIT" 12 "HIGH_BIT = 0x80000000";
            getInitVal := APSInt_of_Z 32 true 2147483648 |} ] |}.

(** A state in which the relation fact of [struct A] of [ast_mutual] has
    been written to ["rel.json"]. *)
Definition state_after_A : State :=
  {| existing_filenames := {[ "/src/types.h:2+A+rel.json" ]};
     output_files := {[ "rel.json" := [relation_fact "A" ["A"; "B"]] ]};
     unopenable := ∅ |}.

(** The same state on a machine where the directory of
    ["no_such_dir/decl.json"] does not exist. *)
Definition state_no_dir : State :=
  {| existing_filenames := {[ "/src/types.h:2+A+rel.json" ]};
     output_files := {[ "rel.json" := [relation_fact "A" ["A"; "B"]] ]};
     unopenable := {[ "no_such_dir/decl.json" ]} |}.

(** [int caf\xE9;] in a source file encoded in Latin-1: the byte [E9]
    alone is not valid UTF-8. *)
Definition decl_latin1 : NamedDecl :=
  declared "caf" 13 ("int caf" +:+ String (ascii_of_nat 233) ";").

(** The state [σ] on a machine where the files named in [names] are the
    ones that cannot be opened. *)
Definition with_unopenable (names : gset string) (σ : State) : State :=
  {| existing_filenames := existing_filenames σ;
     output_files := output_files σ;
     unopenable := names |}.

(** * Properties *)

(** ** Canonical types *)

Lemma getCanonicalType_no_sugar (qt : QualType) :
  match getCanonicalType qt with
  | ElaboratedType _ | TypedefType _ _ => False
  | _ => True
  end.
Proof. induction qt; simpl; auto. Qed.

Lemma getCanonicalType_idemp (qt : QualType) :
  getCanonicalType (getCanonicalType qt) = getCanonicalType qt.
Proof. induction qt; simpl; congruence. Qed.

Lemma type_size_canonical (qt : QualType) :
  type_size (getCanonicalType qt) ≤ type_size qt.
Proof. induction qt; simpl; lia. Qed.

Lemma type_size_pos (qt : QualType) : 0 < type_size qt.
Proof. destruct qt; simpl; lia. Qed.

(** After [qt = qt.getCanonicalType()] neither [getAs<ElaboratedType>] nor
    [getAs<TypedefType>] answers: the third and the fourth branch of
    [collect_nested_structs] are never taken. *)
Lemma canonical_not_elaborated (qt : QualType) :
  getAs_ElaboratedType (getCanonicalType qt) = None.
Proof.
  pose proof (getCanonicalType_no_sugar qt) as H.
  destruct (getCanonicalType qt); simpl; auto; contradiction.
Qed.

Lemma canonical_not_typedef (qt : QualType) :
  getAs_TypedefType (getCanonicalType qt) = None.
Proof.
  pose proof (getCanonicalType_no_sugar qt) as H.
  destruct (getCanonicalType qt); simpl; auto; contradiction.
Qed.

(** ** The walker, one call unfolded *)

Lemma collect_nested_structs_unfold (ast : AST) (fuel : nat) (qt : QualType)
    (w : Walk) :
  collect_nested_structs ast (S fuel) qt w =
  match getCanonicalType qt with
  | PointerType pointee => collect_nested_structs ast fuel pointee w
  | ArrayType element => collect_nested_structs ast fuel element w
  | RecordType rt => visit_record ast (collect_nested_structs ast fuel) rt w
  | _ => Some w
  end.
Proof.
  pose proof (getCanonicalType_no_sugar qt) as H.
  simpl. destruct (getCanonicalType qt); simpl; try reflexivity; contradiction.
Qed.

Lemma for_fields_nil (visit : QualType → Walk → option Walk) (w : Walk) :
  for_fields visit [] w = Some w.
Proof. reflexivity. Qed.

Lemma for_fields_cons (visit : QualType → Walk → option Walk)
    (qt : QualType) (qts : list QualType) (w : Walk) :
  for_fields visit (qt :: qts) w =
  match visit qt w with
  | Some w' => for_fields visit qts w'
  | None => None
  end.
Proof.
  unfold for_fields. simpl. destruct (visit qt w) as [w'|]; [reflexivity|].
  induction qts as [|q qts IH]; simpl; auto.
Qed.

(** ** Termination of the walk *)

Section Walker.
Context (ast : AST).

Lemma field_size_lt_width (def : nat) (qt : QualType) :
  qt ∈ fields (ast !!! def) → type_size qt < ast_width ast.
Proof.
  intros Hin. unfold ast_width. apply Nat.lt_succ_r, max_list_elem_of_le.
  apply list_elem_of_fmap. exists qt. split; [reflexivity|].
  rewrite lookup_total_alt in Hin.
  destruct (ast !! def) as [rd|] eqn:Hdef; simpl in Hin.
  - apply list_elem_of_join. exists (fields rd). split; [exact Hin|].
    apply list_elem_of_fmap. exists (def, rd). split; [reflexivity|].
    by apply elem_of_map_to_list.
  - by apply elem_of_nil in Hin.
Qed.

Lemma fields_outside (def : nat) :
  def ∉ dom ast → fields (ast !!! def) = [].
Proof.
  intros Hdef. rewrite lookup_total_alt.
  apply not_elem_of_dom in Hdef. by rewrite Hdef.
Qed.

Lemma unvisited_mono (w w' : Walk) :
  visited w ⊆ visited w' → unvisited ast w' ≤ unvisited ast w.
Proof. intros Hsub. apply subseteq_size. set_solver. Qed.

Lemma unvisited_insert (def : nat) (w : Walk) :
  def ∈ dom ast → def ∉ visited w →
  S (unvisited ast (insert_visited def w)) ≤ unvisited ast w.
Proof.
  intros Hdom Hnew. apply Nat.le_succ_l, subset_size. simpl.
  apply strict_spec_alt. split; [set_solver|].
  intros Heq. assert (def ∈ dom ast ∖ visited w) as Hin by set_solver.
  rewrite <- Heq in Hin. set_solver.
Qed.

Lemma unvisited_le (w : Walk) : unvisited ast w ≤ size (dom ast).
Proof. apply subseteq_size. set_solver. Qed.

(** The loop over the fields returns as soon as every call it makes does,
    and every call finds at most the unvisited records of the loop's
    start. *)
Lemma for_fields_returns (fuel : nat) (qts : list QualType) :
  (∀ qt w, qt ∈ qts →
     type_size qt + unvisited ast w * ast_width ast < fuel →
     ∃ w', collect_nested_structs ast fuel qt w = Some w'
           ∧ visited w ⊆ visited w') →
  ∀ w, (∀ qt, qt ∈ qts → type_size qt < ast_width ast) →
    unvisited ast w * ast_width ast + ast_width ast ≤ fuel →
    ∃ w', for_fields (collect_nested_structs ast fuel) qts w = Some w'
          ∧ visited w ⊆ visited w'.
Proof.
  induction qts as [|qt qts IH]; intros Hcall w Hsize Hfuel.
  - exists w. split; [reflexivity|set_solver].
  - rewrite for_fields_cons.
    destruct (Hcall qt w) as (w1 & -> & Hsub1).
    { left. }
    { specialize (Hsize qt (list_elem_of_here _ _)). lia. }
    destruct (IH (fun q w0 Hq => Hcall q w0 (list_elem_of_further _ _ _ Hq)) w1)
      as (w2 & Hw2 & Hsub2).
    { intros q Hq. apply Hsize. by right. }
    { pose proof (unvisited_mono _ _ Hsub1). nia. }
    exists w2. split; [exact Hw2|set_solver].
Qed.

(** A call returns when its depth bound exceeds the size of its type plus
    one full field type per record it may still expand; it never removes
    a record from the visited set. *)
Lemma collect_nested_structs_returns (fuel : nat) :
  ∀ qt w, type_size qt + unvisited ast w * ast_width ast < fuel →
    ∃ w', collect_nested_structs ast fuel qt w = Some w'
          ∧ visited w ⊆ visited w'.
Proof.
  induction fuel as [|fuel IH]; intros qt w Hfuel; [lia|].
  rewrite collect_nested_structs_unfold.
  pose proof (type_size_canonical qt) as Hcanon.
  destruct (getCanonicalType qt) as [|p|e|n|a u|rt]; simpl in Hcanon;
    try (exists w; split; [reflexivity|set_solver]);
    try (apply IH; lia).
  unfold visit_record.
  set (w0 := if decide (_ = "") then w else _).
  assert (visited w0 = visited w) as Hw0
    by (subst w0; case_decide; reflexivity).
  assert (unvisited ast w0 = unvisited ast w) as Hu0
    by (unfold unvisited; by rewrite Hw0).
  destruct (getDefinition (ast !!! rt)) as [def|];
    [|exists w0; split; [reflexivity|set_solver]].
  case_decide as Hvis; [exists w0; split; [reflexivity|set_solver]|].
  destruct (decide (def ∈ dom ast)) as [Hdom|Hdom].
  - destruct (for_fields_returns fuel (fields (ast !!! def))
                (fun q w1 _ => IH q w1) (insert_visited def w0))
      as (w' & Hw' & Hsub).
    { intros q Hq. by apply (field_size_lt_width def). }
    { pose proof (unvisited_insert def w0 Hdom Hvis).
      pose proof (type_size_pos qt). nia. }
    exists w'. split; [exact Hw'|]. simpl in Hsub. set_solver.
  - rewrite (fields_outside def Hdom), for_fields_nil.
    eexists. split; [reflexivity|]. simpl. set_solver.
Qed.

(** More depth never changes the result of a call that returned. *)
Lemma for_fields_fuel_mono (fuel fuel' : nat) (qts : list QualType) :
  (∀ qt w w', collect_nested_structs ast fuel qt w = Some w' →
              collect_nested_structs ast fuel' qt w = Some w') →
  ∀ w w', for_fields (collect_nested_structs ast fuel) qts w = Some w' →
          for_fields (collect_nested_structs ast fuel') qts w = Some w'.
Proof.
  intros Hcall. induction qts as [|qt qts IH]; intros w w'; [done|].
  rewrite !for_fields_cons.
  destruct (collect_nested_structs ast fuel qt w) as [w1|] eqn:Hqt; [|done].
  rewrite (Hcall _ _ _ Hqt). apply IH.
Qed.

Lemma collect_nested_structs_fuel_mono (fuel : nat) :
  ∀ fuel' qt w w', fuel ≤ fuel' →
    collect_nested_structs ast fuel qt w = Some w' →
    collect_nested_structs ast fuel' qt w = Some w'.
Proof.
  induction fuel as [|fuel IH]; intros fuel' qt w w' Hle; [done|].
  destruct fuel' as [|fuel']; [lia|].
  rewrite !collect_nested_structs_unfold.
  destruct (getCanonicalType qt) as [|p|e|n|a u|rt]; try done;
    try (apply IH; lia).
  unfold visit_record.
  destruct (getDefinition (ast !!! rt)) as [def|]; [|done].
  case_decide; [done|].
  apply for_fields_fuel_mono. intros q w1 w2. apply IH. lia.
Qed.

(** What a walk relates: every property of the two sets that holds
    initially, composes, and survives the two insertions of the code
    relates the sets before a call to the sets after it. *)
Lemma collect_nested_structs_invariant (P : Walk → Walk → Prop) :
  (∀ w, P w w) →
  (∀ w1 w2 w3, P w1 w2 → P w2 w3 → P w1 w3) →
  (∀ name w, P w (insert_nested name w)) →
  (∀ def w, def ∉ visited w → P w (insert_visited def w)) →
  ∀ fuel qt w w',
    collect_nested_structs ast fuel qt w = Some w' → P w w'.
Proof.
  intros Hrefl Htrans Hname Hdef.
  induction fuel as [|fuel IH]; intros qt w w'; [done|].
  rewrite collect_nested_structs_unfold.
  destruct (getCanonicalType qt) as [|p|e|n|a u|rt];
    try (intros [= <-]; apply Hrefl); try apply IH.
  unfold visit_record.
  set (w0 := if decide (_ = "") then w else _).
  assert (P w w0) as Hw0 by (subst w0; case_decide; auto).
  destruct (getDefinition (ast !!! rt)) as [def|];
    [|intros [= <-]; exact Hw0].
  case_decide as Hvis; [intros [= <-]; exact Hw0|].
  specialize (Hdef def w0 Hvis).
  assert (P w (insert_visited def w0)) as Hstart by eauto.
  revert Hstart. generalize (insert_visited def w0).
  induction (fields (ast !!! def)) as [|q qs IHq]; intros w1 Hw1.
  - intros [= <-]. exact Hw1.
  - rewrite for_fields_cons.
    destruct (collect_nested_structs ast fuel q w1) as [w2|] eqn:Hq; [|done].
    apply IHq. eauto.
Qed.

End Walker.

(** ** [std::set<std::string>] keeps its elements sorted *)

Lemma string_lt_trans (a b c : string) :
  string_lt a b → string_lt b c → string_lt a c.
Proof.
  unfold string_lt. intros Hab Hbc.
  apply String_as_OT.cmp_lt in Hab, Hbc. apply String_as_OT.cmp_lt.
  eapply String_as_OT.lt_trans; eauto.
Qed.

Lemma string_compare_refl (a : string) : String.compare a a = Eq.
Proof. by apply String_as_OT.cmp_eq. Qed.

Lemma string_lt_irrefl (a : string) : ¬ string_lt a a.
Proof. unfold string_lt. by rewrite string_compare_refl. Qed.

Lemma string_compare_gt (a b : string) :
  String.compare a b = Gt → string_lt b a.
Proof.
  unfold string_lt. intros H. rewrite String.compare_antisym, H. reflexivity.
Qed.

Lemma set_insert_elem_of (x z : string) (s : list string) :
  z ∈ set_insert x s ↔ z = x ∨ z ∈ s.
Proof.
  induction s as [|y s IH]; simpl.
  - rewrite list_elem_of_singleton. set_solver.
  - destruct (String.compare x y) eqn:Hc.
    + apply String.compare_eq_iff in Hc as ->. set_solver.
    + set_solver.
    + rewrite !elem_of_cons, IH. tauto.
Qed.

Lemma set_insert_sorted (x : string) (s : list string) :
  Sorted string_lt s → Sorted string_lt (set_insert x s).
Proof.
  induction 1 as [|y s Hs IH Hhd]; simpl.
  - repeat constructor.
  - destruct (String.compare x y) eqn:Hc.
    + by constructor.
    + constructor; [by constructor|by constructor].
    + constructor; [exact IH|].
      apply string_compare_gt in Hc.
      destruct s as [|z s]; simpl; [by constructor|].
      destruct (String.compare x z); constructor; auto.
      all: by inversion Hhd.
Qed.

Lemma sorted_strings_NoDup (s : list string) :
  Sorted string_lt s → NoDup s.
Proof.
  intros Hs. apply Sorted_StronglySorted in Hs; [|exact string_lt_trans].
  induction Hs as [|y s Hs IH Hall]; constructor; [|exact IH].
  intros Hin. rewrite List.Forall_forall in Hall.
  apply list_elem_of_In, Hall in Hin. by apply string_lt_irrefl in Hin.
Qed.

(** ** What the walk preserves *)

Lemma for_fields_invariant (P : Walk → Walk → Prop)
    (visit : QualType → Walk → option Walk) (qts : list QualType) :
  (∀ w, P w w) →
  (∀ w1 w2 w3, P w1 w2 → P w2 w3 → P w1 w3) →
  (∀ qt w w', visit qt w = Some w' → P w w') →
  ∀ w w', for_fields visit qts w = Some w' → P w w'.
Proof.
  intros Hrefl Htrans Hvisit.
  induction qts as [|qt qts IH]; intros w w'.
  - intros [= <-]. apply Hrefl.
  - rewrite for_fields_cons. destruct (visit qt w) as [w1|] eqn:Hqt; [|done].
    intros Hrest. eauto.
Qed.

Lemma walk_of_fields_sorted (ast : AST) (fuel : nat) (qts : list QualType)
    (w w' : Walk) :
  for_fields (collect_nested_structs ast fuel) qts w = Some w' →
  Sorted string_lt (nested w) → Sorted string_lt (nested w').
Proof.
  apply (for_fields_invariant
           (fun w w' => Sorted string_lt (nested w) → Sorted string_lt (nested w')));
    [auto|auto|].
  intros qt w1 w2.
  apply (collect_nested_structs_invariant ast
           (fun w w' => Sorted string_lt (nested w) → Sorted string_lt (nested w')));
    auto.
  intros name w0. simpl. apply set_insert_sorted.
Qed.

(** ** The array of names *)

Lemma names_array (names : list string) :
  foldl (fun (arr : json) (name : string) => json_push_back (json_string name) arr)
        (json_array []) names
  = json_array (json_string <$> names).
Proof.
  change (json_string <$> names) with ([] ++ (json_string <$> names)).
  generalize (@nil json) as acc.
  induction names as [|name names IH]; intros acc; simpl.
  - by rewrite app_nil_r.
  - rewrite IH. by rewrite <- app_assoc.
Qed.

(** ** The state after an append *)

Lemma open_app_ok (name : string) (σ : State) :
  name ∉ unopenable σ →
  open_app name σ
  = {| existing_filenames := existing_filenames σ;
       output_files :=
         <[name := default [] (output_files σ !! name)]> (output_files σ);
       unopenable := unopenable σ |}.
Proof. intros Hopen. unfold open_app. by rewrite decide_False. Qed.

Lemma open_app_fail (name : string) (σ : State) :
  name ∈ unopenable σ → open_app name σ = σ.
Proof. intros Hfail. unfold open_app. by rewrite decide_True. Qed.

Lemma write_line_fail (name : string) (j : json) (σ : State) :
  name ∈ unopenable σ → write_line name j σ = σ.
Proof. intros Hfail. unfold write_line. by rewrite decide_True. Qed.

Lemma write_line_ok (name : string) (j : json) (σ : State) :
  name ∉ unopenable σ → dump_ok j = true →
  write_line name j σ
  = {| existing_filenames := existing_filenames σ;
       output_files :=
         <[name := default [] (output_files σ !! name) ++ [j]]>
           (output_files σ);
       unopenable := unopenable σ |}.
Proof.
  intros Hopen Hdump. unfold write_line. by rewrite decide_False, Hdump.
Qed.

Lemma write_line_keys (name : string) (j : json) (σ : State) :
  existing_filenames (write_line name j σ) = existing_filenames σ.
Proof.
  unfold write_line, open_app. repeat case_decide; by destruct (dump_ok j).
Qed.

Lemma open_app_keys (name : string) (σ : State) :
  existing_filenames (open_app name σ) = existing_filenames σ.
Proof. unfold open_app. by case_decide. Qed.


Lemma write_line_unopenable (name : string) (j : json) (σ : State) :
  unopenable (write_line name j σ) = unopenable σ.
Proof.
  unfold write_line, open_app. repeat case_decide; by destruct (dump_ok j).
Qed.

Lemma output_files_appended (name : string) (j : json) (key_name : string)
    (σ : State) :
  name ∉ unopenable σ → dump_ok j = true →
  output_files (write_line name j (claim key_name (open_app name σ)))
  = <[name := default [] (output_files σ !! name) ++ [j]]> (output_files σ).
Proof.
  intros Hopen Hdump. rewrite open_app_ok by done.
  rewrite write_line_ok by done. simpl.
  by rewrite lookup_insert_eq, insert_insert_eq.
Qed.

Lemma open_app_idemp (name : string) (σ : State) :
  open_app name (open_app name σ) = open_app name σ.
Proof.
  destruct (decide (name ∈ unopenable σ)) as [Hfail|Hopen].
  - by rewrite !(open_app_fail name σ Hfail).
  - rewrite (open_app_ok name σ Hopen). rewrite open_app_ok by done.
    simpl. by rewrite lookup_insert_eq, insert_insert_eq.
Qed.

Lemma open_app_opened (name : string) (j : json) (σ : State) :
  open_app name (write_line name j σ) = write_line name j σ.
Proof.
  destruct (decide (name ∈ unopenable σ)) as [Hfail|Hopen].
  - rewrite (write_line_fail name j σ Hfail). by apply open_app_fail.
  - destruct (dump_ok j) eqn:Hdump.
    + rewrite (write_line_ok name j σ Hopen Hdump).
      rewrite open_app_ok by done. simpl.
      by rewrite lookup_insert_eq, insert_insert_eq.
    + unfold write_line. rewrite decide_False, Hdump by done.
      apply open_app_idemp.
Qed.

(** ** The emitters, by cases on the registry *)

Lemma output_decl_claimed (decl : NamedDecl) (output_file_name : string)
    (is_typedef : bool) (alias_name : string) (σ : State) :
  decl_key (filenameWithLine (getBeginLoc decl)) (getNameAsString decl)
    output_file_name alias_name ∈ existing_filenames σ →
  output_decl decl output_file_name is_typedef alias_name σ
  = open_app output_file_name σ.
Proof.
  intros Hin. unfold output_decl. cbn zeta.
  rewrite decide_True; [reflexivity|]. by rewrite open_app_keys.
Qed.

Lemma output_decl_fresh (decl : NamedDecl) (output_file_name : string)
    (is_typedef : bool) (alias_name : string) (σ : State) :
  let key_name :=
    decl_key (filenameWithLine (getBeginLoc decl)) (getNameAsString decl)
      output_file_name alias_name in
  key_name ∉ existing_filenames σ →
  output_decl decl output_file_name is_typedef alias_name σ
  = write_line output_file_name (decl_fact decl is_typedef alias_name)
      (claim key_name (open_app output_file_name σ)).
Proof.
  intros key_name Hkey. unfold output_decl. cbn zeta.
  rewrite decide_False; [reflexivity|]. by rewrite open_app_keys.
Qed.

Lemma output_enum_values_fresh (decl : EnumDecl) (output_file_name : string)
    (σ : State) :
  let key_name :=
    fact_key (filenameWithLine (getBeginLoc decl)) (getNameAsString decl)
      output_file_name in
  getNameAsString decl ≠ "" →
  key_name ∉ existing_filenames σ →
  output_enum_values decl output_file_name σ
  = write_line output_file_name (enum_fact decl) (claim key_name σ).
Proof.
  intros key_name Hname Hkey. unfold output_enum_values.
  rewrite (decide_False (P := getNameAsString decl = "")) by exact Hname.
  by rewrite decide_False by exact Hkey.
Qed.

Lemma output_enum_values_claimed (decl : EnumDecl) (output_file_name : string)
    (σ : State) :
  fact_key (filenameWithLine (getBeginLoc decl)) (getNameAsString decl)
    output_file_name ∈ existing_filenames σ →
  output_enum_values decl output_file_name σ = σ.
Proof.
  intros Hin. unfold output_enum_values.
  case_decide; [reflexivity|]. by rewrite decide_True.
Qed.

Lemma output_struct_relations_claimed (ast : AST) (fuel : nat) (decl : nat)
    (output_file_name struct_name : string) (σ : State) :
  let rd : RecordDecl := ast !!! decl in
  fact_key (filenameWithLine (getBeginLoc rd))
    (resolve_structName rd struct_name) output_file_name
    ∈ existing_filenames σ →
  output_struct_relations ast fuel decl output_file_name struct_name σ = Some σ.
Proof.
  intros rd Hin. unfold output_struct_relations.
  case_decide; [reflexivity|]. by rewrite decide_True.
Qed.

(** The walk that [output_struct_relations] starts returns, and the fact
    appended lists the names it collected, in increasing order. *)
Lemma output_struct_relations_fresh (ast : AST) (fuel : nat) (decl : nat)
    (output_file_name struct_name : string) (σ : State) :
  let rd : RecordDecl := ast !!! decl in
  let structName := resolve_structName rd struct_name in
  let key_name :=
    fact_key (filenameWithLine (getBeginLoc rd)) structName output_file_name in
  structName ≠ "" →
  key_name ∉ existing_filenames σ →
  relations_fuel ast ≤ fuel →
  ∃ w, for_fields (collect_nested_structs ast fuel) (fields rd)
         {| nested := []; visited := {[decl]} |} = Some w
       ∧ Sorted string_lt (nested w)
       ∧ output_struct_relations ast fuel decl output_file_name struct_name σ
         = Some (write_line output_file_name
                   (relation_fact structName (nested w)) (claim key_name σ)).
Proof.
  intros rd structName key_name Hname Hkey Hfuel.
  destruct (for_fields_returns ast fuel (fields rd)
              (fun qt w _ => collect_nested_structs_returns ast fuel qt w)
              {| nested := []; visited := {[decl]} |})
    as (w & Hw & _).
  { intros qt Hqt. by apply (field_size_lt_width ast decl). }
  { pose proof (unvisited_le ast {| nested := []; visited := {[decl]} |}).
    unfold relations_fuel in Hfuel. nia. }
  exists w. split; [exact Hw|]. split.
  { apply (walk_of_fields_sorted _ _ _ _ _ Hw). constructor. }
  unfold output_struct_relations. fold rd. fold structName. fold key_name.
  rewrite (decide_False (P := structName = "")) by done.
  rewrite (decide_False (P := key_name ∈ existing_filenames σ)) by done.
  rewrite Hw. simpl. by rewrite names_array.
Qed.

(** ** Walks on particular shapes *)

(** The walk only sees the canonical type: the alias names on the way to a
    record never reach it. *)
Lemma collect_nested_structs_canonical (ast : AST) (fuel : nat) (qt : QualType)
    (w : Walk) :
  collect_nested_structs ast fuel (getCanonicalType qt) w
  = collect_nested_structs ast fuel qt w.
Proof.
  destruct fuel as [|fuel]; [reflexivity|].
  by rewrite !collect_nested_structs_unfold, getCanonicalType_idemp.
Qed.

Lemma visit_record_named (ast : AST) (visit : QualType → Walk → option Walk)
    (rt : nat) (rd : RecordDecl) (w : Walk) :
  ast !! rt = Some rd →
  getNameAsString rd ≠ "" →
  visit_record ast visit rt w =
  match getDefinition rd with
  | Some def =>
      if decide (def ∈ visited w) then Some (insert_nested (getNameAsString rd) w)
      else for_fields visit (fields (ast !!! def))
             (insert_visited def (insert_nested (getNameAsString rd) w))
  | None => Some (insert_nested (getNameAsString rd) w)
  end.
Proof.
  intros Hrt Hname. unfold visit_record.
  rewrite (lookup_total_correct _ _ _ Hrt).
  rewrite (decide_False (P := getNameAsString rd = "")) by done.
  by rewrite (decide_False (P := getNameAsString rd = "")) by done.
Qed.

Lemma set_insert_idemp (x : string) (s : list string) :
  set_insert x (set_insert x s) = set_insert x s.
Proof.
  induction s as [|y s IH]; simpl.
  - by rewrite string_compare_refl.
  - destruct (String.compare x y) eqn:Hc; simpl.
    + by rewrite Hc.
    + by rewrite string_compare_refl.
    + by rewrite Hc, IH.
Qed.

Lemma insert_nested_idemp (name : string) (w : Walk) :
  insert_nested name (insert_nested name w) = insert_nested name w.
Proof. unfold insert_nested. simpl. by rewrite set_insert_idemp. Qed.

Section SelfReference.
Context (ast : AST) (a : nat) (rdA : RecordDecl).
Hypothesis Hlookup : ast !! a = Some rdA.
Hypothesis Hname : getNameAsString rdA ≠ "".
Hypothesis Hdef : getDefinition rdA = Some a.

(** Walking a pointer chain that ends in an already visited record [a]
    records the name of [a] and expands nothing. *)
Lemma collect_pointer_chain (qt : QualType) :
  ∀ fuel w, pointer_chain_to a qt → a ∈ visited w → type_size qt < fuel →
    collect_nested_structs ast fuel qt w
    = Some (insert_nested (getNameAsString rdA) w).
Proof using Hlookup Hname Hdef.
  induction qt as [|p IH|e _|n _|al u _|rt]; intros fuel w Hchain Hvis Hfuel;
    try done.
  destruct fuel as [|fuel]; [lia|].
  rewrite collect_nested_structs_unfold. simpl.
  rewrite collect_nested_structs_canonical.
  destruct p as [|p'|e|n|al u|rt]; try done.
  - apply IH; [done|done|simpl in *; lia].
  - simpl in Hchain. subst rt. simpl in Hfuel.
    destruct fuel as [|fuel]; [lia|].
    rewrite collect_nested_structs_unfold. simpl.
    rewrite (visit_record_named _ _ _ _ _ Hlookup Hname), Hdef.
    by rewrite decide_True.
Qed.

Lemma walk_of_self_pointers (fuel : nat) (qts : list QualType) :
  ∀ w, Forall (points_to a) qts → a ∈ visited w →
    (∀ qt, qt ∈ qts → type_size qt < fuel) →
    for_fields (collect_nested_structs ast fuel) qts w
    = Some (if qts is [] then w
            else insert_nested (getNameAsString rdA) w).
Proof using Hlookup Hname Hdef.
  induction qts as [|qt qts IH]; intros w Hall Hvis Hfuel; [reflexivity|].
  apply Forall_cons in Hall as [Hqt Hall].
  rewrite for_fields_cons, <- collect_nested_structs_canonical.
  rewrite (collect_pointer_chain _ fuel w Hqt Hvis).
  2:{ pose proof (type_size_canonical qt).
      specialize (Hfuel qt (list_elem_of_here _ _)). lia. }
  rewrite IH; [|exact Hall|exact Hvis|].
  - destruct qts; [reflexivity|by rewrite insert_nested_idemp].
  - intros q Hq. apply Hfuel. by right.
Qed.

End SelfReference.

(** * The walker and the relation emitter *)

(** C4.  [collect_nested_structs] returns on every AST, cyclic or not, once
    the depth allowed exceeds [walk_fuel], its result does not depend on the
    depth, and it only adds to the visited set: a definition is expanded
    when it is not in the set and is in it from then on.  For two records
    [A { B *b; }] and [B { A *a; }] both calls of the relation emitter
    return, the fact of [A] lists ["B"] and the fact of [B] lists ["A"]. *)
Theorem collect_nested_structs_terminates :
  (∀ (ast : AST) (qt : QualType) (w : Walk) (fuel : nat),
     walk_fuel ast qt ≤ fuel →
     ∃ w', collect_nested_structs ast fuel qt w = Some w'
           ∧ visited w ⊆ visited w'
           ∧ ∀ fuel', walk_fuel ast qt ≤ fuel' →
               collect_nested_structs ast fuel' qt w = Some w')
  ∧ (∀ (ast : AST) (a b : nat) (rdA rdB : RecordDecl) (fuel : nat)
       (output_file_name : string) (σ : State),
       a ≠ b →
       ast !! a = Some rdA → ast !! b = Some rdB →
       getNameAsString rdA = "A" → getNameAsString rdB = "B" →
       getDefinition rdA = Some a → getDefinition rdB = Some b →
       fields rdA = [PointerType (RecordType b)] →
       fields rdB = [PointerType (RecordType a)] →
       let keyA := fact_key (filenameWithLine (getBeginLoc rdA)) "A" output_file_name in
       let keyB := fact_key (filenameWithLine (getBeginLoc rdB)) "B" output_file_name in
       keyA ∉ existing_filenames σ → keyB ∉ existing_filenames σ →
       4 ≤ fuel →
       output_struct_relations ast fuel a output_file_name "" σ
       = Some (write_line output_file_name (relation_fact "A" ["A"; "B"])
                 (claim keyA σ))
       ∧ output_struct_relations ast fuel b output_file_name "" σ
         = Some (write_line output_file_name (relation_fact "B" ["A"; "B"])
                   (claim keyB σ))).
Proof.
  split.
  - intros ast qt w fuel Hfuel.
    assert (∀ n, walk_fuel ast qt ≤ n →
              type_size qt + unvisited ast w * ast_width ast < n) as Hbound.
    { intros n Hn. unfold walk_fuel in Hn.
      pose proof (unvisited_le ast w). nia. }
    destruct (collect_nested_structs_returns ast fuel qt w (Hbound _ Hfuel))
      as (w' & Hw' & Hsub).
    exists w'. split; [exact Hw'|]. split; [exact Hsub|].
    intros fuel' Hfuel'.
    destruct (collect_nested_structs_returns ast fuel' qt w (Hbound _ Hfuel'))
      as (w'' & Hw'' & _).
    destruct (Nat.le_ge_cases fuel fuel') as [Hle|Hle].
    + by apply (collect_nested_structs_fuel_mono ast fuel).
    + pose proof (collect_nested_structs_fuel_mono ast fuel' fuel _ _ _ Hle Hw'').
      congruence.
  - intros ast a b rdA rdB fuel out σ Hab HA HB HnA HnB HdA HdB HfA HfB
      keyA keyB HkA HkB Hfuel.
    assert (∀ (x y : nat) (rdX rdY : RecordDecl) (nx ny : string),
              x ≠ y → ast !! x = Some rdX → ast !! y = Some rdY →
              getNameAsString rdX = nx → getNameAsString rdY = ny →
              nx ≠ "" → ny ≠ "" →
              getDefinition rdX = Some x → getDefinition rdY = Some y →
              fields rdY = [PointerType (RecordType x)] →
              for_fields (collect_nested_structs ast fuel)
                [PointerType (RecordType y)] {| nested := []; visited := {[x]} |}
              = Some {| nested := set_insert nx [ny];
                        visited := {[y]} ∪ {[x]} |}) as Hwalk.
    { intros x y rdX rdY nx ny Hxy HX HY <- <- HnX HnY HdX HdY HfY.
      do 4 (destruct fuel as [|fuel]; [lia|]).
      rewrite for_fields_cons, collect_nested_structs_unfold.
      cbn [getCanonicalType]. rewrite collect_nested_structs_unfold.
      cbn [getCanonicalType].
      rewrite (visit_record_named _ _ _ _ _ HY HnY), HdY.
      rewrite decide_False by (cbn [insert_nested visited]; set_solver).
      rewrite (lookup_total_correct _ _ _ HY), HfY.
      rewrite for_fields_cons, collect_nested_structs_unfold.
      cbn [getCanonicalType]. rewrite collect_nested_structs_unfold.
      cbn [getCanonicalType].
      rewrite (visit_record_named _ _ _ _ _ HX HnX), HdX.
      rewrite decide_True by (cbn [insert_nested insert_visited visited]; set_solver).
      reflexivity. }
    unfold output_struct_relations.
    rewrite (lookup_total_correct _ _ _ HA), (lookup_total_correct _ _ _ HB).
    unfold resolve_structName. simpl. rewrite HnA, HnB. simpl.
    fold keyA. fold keyB.
    rewrite (decide_False (P := keyA ∈ existing_filenames σ)) by done.
    rewrite (decide_False (P := keyB ∈ existing_filenames σ)) by done.
    rewrite HfA, HfB.
    rewrite (Hwalk a b rdA rdB "A" "B"), (Hwalk b a rdB rdA "B" "A");
      try done; try congruence.
Qed.

Lemma collect_nested_structs_terminates_witness :
  (∃ w', collect_nested_structs ast_mutual (walk_fuel ast_mutual (RecordType 0))
           (RecordType 0) {| nested := []; visited := ∅ |} = Some w')
  ∧ output_struct_relations ast_mutual 4 0 "rel.json" "" empty_state
    = Some (write_line "rel.json" (relation_fact "A" ["A"; "B"])
              (claim "/src/types.h:2+A+rel.json" empty_state))
  ∧ output_struct_relations ast_mutual 4 1 "rel.json" "" empty_state
    = Some (write_line "rel.json" (relation_fact "B" ["A"; "B"])
              (claim "/src/types.h:3+B+rel.json" empty_state)).
Proof.
  destruct collect_nested_structs_terminates as [Hterm Hmutual].
  split.
  - destruct (Hterm ast_mutual (RecordType 0) {| nested := []; visited := ∅ |}
                (walk_fuel ast_mutual (RecordType 0)) (le_n _))
      as (w' & Hw' & _).
    by exists w'.
  - apply (Hmutual ast_mutual 0 1 mutual_A mutual_B 4 "rel.json" empty_state);
      try reflexivity; try (intros Hin; by apply not_elem_of_empty in Hin); lia.
Defined.

(** C1, as the code has it.  For a named record [A] that is its own
    definition and whose fields are all pointers to [A], the first call of
    [output_struct_relations] returns, and as soon as [A] has a field the
    fact appended is [{"A": ["A"]}]: the walker records the name of every
    record type it reaches before it looks at the visited set, so the name
    of [A] itself is the one nested name.  The list is empty only for a
    record without fields. *)
Theorem self_reference_lists_own_name (ast : AST) (a : nat) (rdA : RecordDecl)
    (fuel : nat) (output_file_name : string) (σ : State) :
  ast !! a = Some rdA →
  getNameAsString rdA ≠ "" →
  getDefinition rdA = Some a →
  Forall (points_to a) (fields rdA) →
  fact_key (filenameWithLine (getBeginLoc rdA)) (getNameAsString rdA)
    output_file_name ∉ existing_filenames σ →
  relations_fuel ast ≤ fuel →
  output_struct_relations ast fuel a output_file_name "" σ
  = Some (write_line output_file_name
            (relation_fact (getNameAsString rdA)
               (if fields rdA is [] then [] else [getNameAsString rdA]))
            (claim (fact_key (filenameWithLine (getBeginLoc rdA))
                      (getNameAsString rdA) output_file_name) σ)).
Proof.
  intros Hlookup Hname Hdef Hall Hkey Hfuel.
  unfold output_struct_relations.
  rewrite (lookup_total_correct _ _ _ Hlookup).
  unfold resolve_structName. simpl.
  rewrite !(decide_False (P := getNameAsString rdA = "")) by done.
  rewrite decide_False by done.
  rewrite (walk_of_self_pointers ast a rdA Hlookup Hname Hdef fuel (fields rdA)).
  - by destruct (fields rdA).
  - exact Hall.
  - simpl. set_solver.
  - intros qt Hqt.
    assert (type_size qt < ast_width ast) as Hlt.
    { apply (field_size_lt_width ast a).
      by rewrite (lookup_total_correct _ _ _ Hlookup). }
    unfold relations_fuel in Hfuel. nia.
Qed.

Lemma self_reference_lists_own_name_witness :
  output_struct_relations ast_self (relations_fuel ast_self) 0 "rel.json" ""
    empty_state
  = Some (write_line "rel.json" (relation_fact "A" ["A"])
            (claim "/src/types.h:1+A+rel.json" empty_state)).
Proof.
  apply (self_reference_lists_own_name ast_self 0 self_A
           (relations_fuel ast_self) "rel.json" empty_state);
    try reflexivity; try done.
  repeat constructor.
Defined.

(** C1, as the specification states it, fails: for
    [struct A { struct A *next; }] the fact emitted is [{"A": ["A"]}] and
    not [{"A": []}]. *)
Lemma self_reference_fact_is_not_empty :
  output_struct_relations ast_self 6 0 "rel.json" "" empty_state
  = Some (write_line "rel.json" (relation_fact "A" ["A"])
            (claim "/src/types.h:1+A+rel.json" empty_state))
  ∧ output_struct_relations ast_self 6 0 "rel.json" "" empty_state
    ≠ Some (write_line "rel.json" (relation_fact "A" [])
              (claim "/src/types.h:1+A+rel.json" empty_state)).
Proof.
  assert (output_struct_relations ast_self 6 0 "rel.json" "" empty_state
          = Some (write_line "rel.json" (relation_fact "A" ["A"])
                    (claim "/src/types.h:1+A+rel.json" empty_state))) as Heq
    by reflexivity.
  split; [exact Heq|].
  rewrite Heq. intros Hempty.
  apply (f_equal (fun r => σ ← r; output_files σ !! "rel.json")) in Hempty.
  vm_compute in Hempty. discriminate Hempty.
Qed.

(** C2, at an input where the code departs from it.  With
    [struct Foo { int x; }; typedef struct Foo Bar;
     typedef struct { int x; int y; } Point; struct R { Bar f; Point p; };]
    the fact of [R] names the field of type [Bar] by the name of the record,
    ["Foo"]: the walker canonicalizes the type first, which removes the
    typedef, so the branch that gives the alias name priority is never
    taken.  The anonymous record is still reported as ["Point"], through
    the typedef that names it. *)
Theorem alias_of_named_record_is_dropped :
  output_struct_relations ast_alias (relations_fuel ast_alias) 2 "rel.json" ""
    empty_state
  = Some (write_line "rel.json" (relation_fact "R" ["Foo"; "Point"])
            (claim "/src/types.h:4+R+rel.json" empty_state))
  ∧ ∀ (ast : AST) (fuel : nat) (aliasName : string) (underlying : QualType)
      (w : Walk),
      collect_nested_structs ast fuel (TypedefType aliasName underlying) w
      = collect_nested_structs ast fuel underlying w.
Proof.
  split; [reflexivity|].
  intros ast fuel aliasName underlying w.
  rewrite <- collect_nested_structs_canonical. simpl.
  apply collect_nested_structs_canonical.
Qed.

(** C6.  The names listed by the relation fact that a call appends are in
    strictly increasing order of [std::string]'s comparison, hence without
    repetition, whatever the fields of the records are and in whatever
    order they come. *)
Theorem relation_names_sorted (ast : AST) (fuel : nat) (decl : nat)
    (output_file_name struct_name : string) (σ : State) :
  let rd : RecordDecl := ast !!! decl in
  let structName := resolve_structName rd struct_name in
  let key_name :=
    fact_key (filenameWithLine (getBeginLoc rd)) structName output_file_name in
  structName ≠ "" →
  key_name ∉ existing_filenames σ →
  relations_fuel ast ≤ fuel →
  ∃ names : list string,
    output_struct_relations ast fuel decl output_file_name struct_name σ
    = Some (write_line output_file_name
              (json_object [(structName, json_array (json_string <$> names))])
              (claim key_name σ))
    ∧ StronglySorted string_lt names
    ∧ NoDup names.
Proof.
  intros rd structName key_name Hname Hkey Hfuel.
  destruct (output_struct_relations_fresh ast fuel decl output_file_name
              struct_name σ Hname Hkey Hfuel) as (w & _ & Hsorted & Hout).
  exists (nested w). split; [exact Hout|]. split.
  - apply Sorted_StronglySorted; [exact string_lt_trans|exact Hsorted].
  - by apply sorted_strings_NoDup.
Qed.

Lemma relation_names_sorted_witness :
  ∃ names : list string,
    output_struct_relations ast_unordered (relations_fuel ast_unordered) 0
      "rel.json" "" empty_state
    = Some (write_line "rel.json"
              (json_object [("Z", json_array (json_string <$> names))])
              (claim "/src/types.h:1+Z+rel.json" empty_state))
    ∧ StronglySorted string_lt names
    ∧ NoDup names.
Proof.
  apply (relation_names_sorted ast_unordered (relations_fuel ast_unordered) 0
           "rel.json" "" empty_state).
  - discriminate.
  - intros Hin. by apply not_elem_of_empty in Hin.
  - apply le_n.
Defined.

Example unordered_fields_sorted_names :
  output_struct_relations ast_unordered (relations_fuel ast_unordered) 0
    "rel.json" "" empty_state
  = Some (write_line "rel.json" (relation_fact "Z" ["B"; "M"])
            (claim "/src/types.h:1+Z+rel.json" empty_state)).
Proof. reflexivity. Qed.

(** * The registry and the three emitters *)

(** C8.  When no name resolves for the record (no explicit name, no name of
    its own, no typedef naming it), [output_struct_relations] returns the
    state it was given, whatever the depth allowed; so does
    [output_enum_values] on an enum whose name is empty.  Neither the
    registry nor any file changes. *)
Theorem unresolved_name_is_noop :
  (∀ (ast : AST) (fuel : nat) (decl : nat) (output_file_name : string)
     (σ : State),
     let rd : RecordDecl := ast !!! decl in
     getNameAsString rd = "" →
     getTypedefNameForAnonDecl rd = None ∨ getTypedefNameForAnonDecl rd = Some "" →
     output_struct_relations ast fuel decl output_file_name "" σ = Some σ)
  ∧ (∀ (decl : EnumDecl) (output_file_name : string) (σ : State),
       getNameAsString decl = "" →
       output_enum_values decl output_file_name σ = σ).
Proof.
  split.
  - intros ast fuel decl out σ rd Hname Hanon.
    unfold output_struct_relations. fold rd.
    assert (resolve_structName rd "" = "") as ->; [|reflexivity].
    unfold resolve_structName. simpl. rewrite Hname. simpl.
    by destruct Hanon as [-> | ->].
  - intros decl out σ Hname. unfold output_enum_values.
    by rewrite decide_True.
Qed.

Lemma unresolved_name_is_noop_witness :
  output_struct_relations ast_unnamed 0 0 "rel.json" "" empty_state
  = Some empty_state
  ∧ output_enum_values enum_unnamed "enum.json" empty_state = empty_state.
Proof.
  destruct unresolved_name_is_noop as [Hrel Henum].
  split.
  - apply (Hrel ast_unnamed 0 0 "rel.json" empty_state); [reflexivity|].
    left. reflexivity.
  - apply (Henum enum_unnamed "enum.json" empty_state). reflexivity.
Defined.

(** * The keys *)

Lemma append_plus_inj (s s' r r' : string) :
  has_plus s = false → has_plus s' = false →
  s +:+ "+" +:+ r = s' +:+ "+" +:+ r' → s = s' ∧ r = r'.
Proof.
  revert s'. induction s as [|c s IH]; intros [|c' s']; simpl;
    intros Hs Hs' Heq.
  - injection Heq as Heq. by subst.
  - injection Heq as Hc _. subst c'. by rewrite decide_True in Hs'.
  - injection Heq as Hc _. subst c. by rewrite decide_True in Hs.
  - injection Heq as Hc Heq. subst c'.
    case_decide; [done|]. by destruct (IH s' Hs Hs' Heq) as [-> ->].
Qed.

(** C5, as the code has it.  The key is a function of its components, and
    it tells apart any two tuples of components in which the separator ["+"]
    occurs at most in the last one: in the alias name for [output_decl], in
    the output file name for the two other emitters. *)
Theorem key_injective_without_separator :
  (∀ filename name output_file_name alias_name
     filename' name' output_file_name' alias_name' : string,
     has_plus filename = false → has_plus name = false →
     has_plus output_file_name = false →
     has_plus filename' = false → has_plus name' = false →
     has_plus output_file_name' = false →
     decl_key filename name output_file_name alias_name
     = decl_key filename' name' output_file_name' alias_name'
     ↔ (filename, name, output_file_name, alias_name)
       = (filename', name', output_file_name', alias_name'))
  ∧ (∀ filename name output_file_name filename' name' output_file_name' : string,
       has_plus filename = false → has_plus name = false →
       has_plus filename' = false → has_plus name' = false →
       fact_key filename name output_file_name
       = fact_key filename' name' output_file_name'
       ↔ (filename, name, output_file_name)
         = (filename', name', output_file_name')).
Proof.
  split.
  - intros f n o a f' n' o' a' Hf Hn Ho Hf' Hn' Ho'. split.
    + unfold decl_key. intros Heq.
      apply append_plus_inj in Heq as [-> Heq]; [|done|done].
      apply append_plus_inj in Heq as [-> Heq]; [|done|done].
      apply append_plus_inj in Heq as [-> ->]; done.
    + by intros [= -> -> -> ->].
  - intros f n o f' n' o' Hf Hn Hf' Hn'. split.
    + unfold fact_key. intros Heq.
      apply append_plus_inj in Heq as [-> Heq]; [|done|done].
      apply append_plus_inj in Heq as [-> ->]; done.
    + by intros [= -> -> ->].
Qed.

(** C5, as the specification states it, fails: the components are joined
    by ["+"] without escaping, so distinct tuples in which it occurs can
    give one key.  [operator+] written to the file ["+o"] and [operator++]
    written to the file ["o"], declared on one line, share their key; so do
    the record [S] of ["/d:1"] written to ["/d:1+T+out"] and the record [T]
    of ["/d:1+S+/d:1"] written to ["out"]. *)
Lemma key_collision :
  decl_key "/src/ops.h:3" "operator+" "+o" ""
  = decl_key "/src/ops.h:3" "operator++" "o" ""
  ∧ ("/src/ops.h:3", "operator+", "+o", "")
    ≠ ("/src/ops.h:3", "operator++", "o", "")
  ∧ fact_key "/d:1" "S" "/d:1+T+out" = fact_key "/d:1+S+/d:1" "T" "out"
  ∧ ("/d:1", "S", "/d:1+T+out") ≠ ("/d:1+S+/d:1", "T", "out").
Proof. repeat split; discriminate. Qed.

(** * The values of the enumerators *)

Lemma to_int64_signed (x : Z) :
  (- 2 ^ 63 ≤ x < 2 ^ 63)%Z → to_int64 x = x.
Proof.
  intros Hx. unfold to_int64. cbv zeta.
  change (2 ^ 64)%Z with 18446744073709551616%Z.
  change (2 ^ 63)%Z with 9223372036854775808%Z in *.
  destruct (Z.ltb_spec (x mod 18446744073709551616) 9223372036854775808);
    Z.to_euclidean_division_equations; lia.
Qed.

Lemma to_int64_congr (x q : Z) : to_int64 (x + q * 2 ^ 64) = to_int64 x.
Proof. unfold to_int64. by rewrite Z_mod_plus_full. Qed.

(** Sign extension from [w] bits gives back the integer that was stored in
    [w] bits. *)
Lemma getSExtValue_of_Z (w : N) (unsigned : bool) (v : Z) :
  (0 < w ≤ 64)%N →
  (- 2 ^ (Z.of_N w - 1) ≤ v < 2 ^ (Z.of_N w - 1))%Z →
  getSExtValue (APSInt_of_Z w unsigned v) = v.
Proof.
  intros Hw Hv. unfold getSExtValue, APSInt_of_Z. simpl.
  destruct (N.leb_spec w 64) as [_|Hgt]; [|lia].
  unfold SignExtend64.
  set (n := Z.of_N w) in *. set (k := (64 - n)%Z).
  assert (0 < n ≤ 64)%Z as Hn by (subst n; lia).
  assert (0 ≤ k)%Z as Hk by (subst k; lia).
  assert (2 ^ 64 = 2 ^ n * 2 ^ k)%Z as Hsplit.
  { rewrite <- Z.pow_add_r by lia. f_equal. subst k. lia. }
  assert (2 ^ 63 = 2 ^ (n - 1) * 2 ^ k)%Z as Hhalf.
  { rewrite <- Z.pow_add_r by lia. f_equal. subst k. lia. }
  assert (0 < 2 ^ k)%Z as Hpow by (apply Z.pow_pos_nonneg; lia).
  rewrite Z.shiftl_mul_pow2 by exact Hk.
  rewrite Z.shiftr_div_pow2 by exact Hk.
  assert ((v mod 2 ^ n) * 2 ^ k = v * 2 ^ k + (- (v / 2 ^ n)) * 2 ^ 64)%Z as ->.
  { rewrite Hsplit. rewrite Z.mod_eq by (apply Z.pow_nonzero; lia). ring. }
  rewrite to_int64_congr, to_int64_signed.
  - apply Z.div_mul. lia.
  - rewrite Hhalf. nia.
Qed.

Lemma object_get_set_eq (key : string) (v : json)
    (members : list (string * json)) :
  object_get key (object_set key v members) = Some v.
Proof.
  induction members as [|[k x] rest IH]; simpl.
  - by rewrite decide_True.
  - destruct (String.compare key k) eqn:Hc; simpl.
    + by rewrite decide_True.
    + by rewrite decide_True.
    + rewrite decide_False; [exact IH|].
      intros ->. by rewrite string_compare_refl in Hc.
Qed.

Lemma object_get_set_ne (key key' : string) (v : json)
    (members : list (string * json)) :
  key ≠ key' →
  object_get key' (object_set key v members) = object_get key' members.
Proof.
  intros Hne. induction members as [|[k x] rest IH]; simpl.
  - by rewrite decide_False.
  - destruct (String.compare key k) eqn:Hc; simpl.
    + apply String.compare_eq_iff in Hc as <-.
      by rewrite !(decide_False (P := key = key')).
    + by rewrite (decide_False (P := key = key')).
    + case_decide; [reflexivity|exact IH].
Qed.

Lemma enum_values_object (ecds : list EnumConstantDecl) :
  ∃ members, enum_values ecds = json_object members.
Proof.
  induction ecds as [|ecd ecds IH] using rev_ind.
  - by exists [].
  - destruct IH as [members IH]. unfold enum_values in *.
    rewrite foldl_snoc, IH. simpl. eauto.
Qed.

(** Each enumerator of an enum whose enumerators have distinct names is a
    member of the object built by the loop, with the sign extended value
    of its initializer. *)
Lemma enum_values_get (ecds : list EnumConstantDecl) (ecd : EnumConstantDecl) :
  NoDup ((fun e : EnumConstantDecl => getNameAsString e) <$> ecds) →
  ecd ∈ ecds →
  json_get (getNameAsString ecd) (enum_values ecds)
  = Some (json_integer (getSExtValue (getInitVal ecd))).
Proof.
  induction ecds as [|last ecds IH] using rev_ind; intros Hnodup Hin.
  - by apply elem_of_nil in Hin.
  - destruct (enum_values_object ecds) as [members Hobj].
    unfold enum_values in *. rewrite foldl_snoc, Hobj. simpl.
    rewrite fmap_app in Hnodup. apply NoDup_app in Hnodup as (Hnd & Hfresh & _).
    apply elem_of_app in Hin as [Hin|Hin].
    + rewrite object_get_set_ne.
      * specialize (IH Hnd Hin). by rewrite Hobj in IH.
      * intros Heq. apply (Hfresh (getNameAsString ecd)).
        -- apply list_elem_of_fmap. by exists ecd.
        -- rewrite <- Heq. simpl. left.
    + apply list_elem_of_singleton in Hin as ->. apply object_get_set_eq.
Qed.

(** Sign extension reads the bits of a single word initializer in two's
    complement at its width. *)
Lemma getSExtValue_single_word (x : APSInt) :
  single_word x → getSExtValue x = signed_value x.
Proof.
  destruct x as [w u bits]. unfold single_word, signed_value. simpl.
  intros [Hw Hbits].
  set (n := Z.of_N w) in *.
  assert (0 < n)%Z as Hn by (subst n; lia).
  assert (2 ^ n = 2 * 2 ^ (n - 1))%Z as Hpow.
  { rewrite <- Z.pow_succ_r by lia. f_equal. lia. }
  destruct (Z.ltb_spec bits (2 ^ (n - 1))) as [Hlow|Hhigh].
  - rewrite <- (getSExtValue_of_Z w u bits) at 2; [|exact Hw|fold n; lia].
    unfold APSInt_of_Z. fold n. by rewrite Z.mod_small by lia.
  - rewrite <- (getSExtValue_of_Z w u (bits - 2 ^ n)); [|exact Hw|fold n; lia].
    unfold APSInt_of_Z. fold n. do 2 f_equal.
    replace (bits - 2 ^ n)%Z with (bits + (-1) * 2 ^ n)%Z by ring.
    rewrite Z_mod_plus_full. by rewrite Z.mod_small by lia.
Qed.

Lemma signed_value_of_Z (w : N) (unsigned : bool) (v : Z) :
  (0 < w)%N →
  (- 2 ^ (Z.of_N w - 1) ≤ v < 2 ^ (Z.of_N w - 1))%Z →
  signed_value (APSInt_of_Z w unsigned v) = v.
Proof.
  intros Hw Hv. unfold signed_value, APSInt_of_Z. simpl.
  set (n := Z.of_N w) in *.
  assert (0 < n)%Z as Hn by (subst n; lia).
  assert (2 ^ n = 2 * 2 ^ (n - 1))%Z as Hpow.
  { rewrite <- Z.pow_succ_r by lia. f_equal. lia. }
  destruct (Z.le_gt_cases 0 v) as [Hpos|Hneg].
  - rewrite Z.mod_small by lia.
    destruct (Z.ltb_spec v (2 ^ (n - 1))); lia.
  - replace (v mod 2 ^ n)%Z with (v + 2 ^ n)%Z.
    + destruct (Z.ltb_spec (v + 2 ^ n) (2 ^ (n - 1))); lia.
    + apply (Z.mod_unique_pos v (2 ^ n) (-1)); lia.
Qed.

(** The sign extension is applied to the bits whatever the signedness of the
    initializer: an enumerator of unsigned type with its top bit set is
    recorded as a negative integer. *)
Example getSExtValue_unsigned_top_bit :
  getSExtValue (APSInt_of_Z 32 true 4294967295) = (-1)%Z.
Proof. reflexivity. Qed.

(** * Further properties of the emitters *)

(** X1.  Pointers and arrays are transparent to the walker: once the depth
    allowed suffices, walking a pointer to [t] or an array of [t] gives what
    walking [t] itself gives, so fields declared [Foo *], [Foo[8]] and [Foo]
    contribute alike. *)
Theorem pointer_and_array_transparent (ast : AST) (t : QualType) (w : Walk)
    (fuel : nat) :
  walk_fuel ast (PointerType t) ≤ fuel →
  collect_nested_structs ast fuel (PointerType t) w
  = collect_nested_structs ast fuel t w
  ∧ collect_nested_structs ast fuel (ArrayType t) w
    = collect_nested_structs ast fuel t w.
Proof.
  intros Hfuel. destruct fuel as [|fuel]; [unfold walk_fuel in Hfuel; lia|].
  destruct (collect_nested_structs_returns ast fuel t w) as (w' & Hw' & _).
  { unfold walk_fuel in Hfuel. simpl in Hfuel.
    pose proof (unvisited_le ast w). nia. }
  rewrite (collect_nested_structs_fuel_mono ast fuel (S fuel) t w w')
    by (lia || exact Hw').
  rewrite !collect_nested_structs_unfold. simpl.
  by rewrite collect_nested_structs_canonical.
Qed.

Lemma pointer_and_array_transparent_witness :
  collect_nested_structs ast_alias 15 (PointerType (RecordType 0))
    {| nested := []; visited := ∅ |}
  = collect_nested_structs ast_alias 15 (RecordType 0)
      {| nested := []; visited := ∅ |}
  ∧ collect_nested_structs ast_alias 15 (ArrayType (RecordType 0))
      {| nested := []; visited := ∅ |}
    = collect_nested_structs ast_alias 15 (RecordType 0)
        {| nested := []; visited := ∅ |}.
Proof.
  apply (pointer_and_array_transparent ast_alias (RecordType 0)
           {| nested := []; visited := ∅ |} 15).
  vm_compute. lia.
Defined.

Lemma extends_refl (σ : State) : extends σ σ.
Proof. split; [set_solver|]. intros name. reflexivity. Qed.

Lemma extends_open_app (name : string) (σ : State) :
  extends σ (open_app name σ).
Proof.
  destruct (decide (name ∈ unopenable σ)) as [Hfail|Hopen].
  { rewrite open_app_fail by done. apply extends_refl. }
  rewrite open_app_ok by done.
  split; [simpl; set_solver|]. intros f. simpl.
  destruct (decide (name = f)) as [->|Hne].
  - rewrite lookup_insert_eq. reflexivity.
  - rewrite lookup_insert_ne by done. reflexivity.
Qed.

Lemma extends_claim (key_name : string) (σ : State) :
  extends σ (claim key_name σ).
Proof. split; [simpl; set_solver|]. intros f. reflexivity. Qed.

Lemma extends_write_line (name key_name : string) (j : json) (σ : State) :
  extends σ (write_line name j (claim key_name σ)).
Proof.
  destruct (decide (name ∈ unopenable σ)) as [Hfail|Hopen].
  { rewrite write_line_fail by done. apply extends_claim. }
  destruct (dump_ok j) eqn:Hdump.
  - rewrite write_line_ok by done.
    split; [simpl; set_solver|]. intros f. simpl.
    destruct (decide (name = f)) as [->|Hne].
    + rewrite lookup_insert_eq. simpl. by apply prefix_app_r.
    + rewrite lookup_insert_ne by done. reflexivity.
  - unfold write_line.
    rewrite (decide_False (P := name ∈ unopenable (claim key_name σ))), Hdump
      by done.
    destruct (extends_claim key_name σ) as [Hk Hf].
    destruct (extends_open_app name (claim key_name σ)) as [Hk' Hf'].
    split; [set_solver|]. intros f. etrans; [apply Hf|apply Hf'].
Qed.

Lemma extends_trans (σ1 σ2 σ3 : State) :
  extends σ1 σ2 → extends σ2 σ3 → extends σ1 σ3.
Proof.
  intros [Hk1 Hf1] [Hk2 Hf2]. split; [set_solver|].
  intros name. etrans; [apply Hf1|apply Hf2].
Qed.

(** X2.  The registry and the files only grow: after a call of any of the
    three emitters every key claimed before is still claimed and every file
    starts with the lines it had. *)
Theorem emitters_only_append :
  (∀ (decl : NamedDecl) (output_file_name : string) (is_typedef : bool)
     (alias_name : string) (σ : State),
     extends σ (output_decl decl output_file_name is_typedef alias_name σ))
  ∧ (∀ (decl : EnumDecl) (output_file_name : string) (σ : State),
       extends σ (output_enum_values decl output_file_name σ))
  ∧ (∀ (ast : AST) (fuel : nat) (decl : nat)
       (output_file_name struct_name : string) (σ σ' : State),
       output_struct_relations ast fuel decl output_file_name struct_name σ
       = Some σ' →
       extends σ σ').
Proof.
  split; [|split].
  - intros decl out t alias σ. unfold output_decl. cbn zeta.
    case_decide; [apply extends_open_app|].
    eapply extends_trans; [apply (extends_open_app out)|].
    apply extends_write_line.
  - intros decl out σ. unfold output_enum_values.
    case_decide; [apply extends_refl|].
    case_decide; [apply extends_refl|]. apply extends_write_line.
  - intros ast fuel decl out sname σ σ'. unfold output_struct_relations.
    case_decide; [intros [= <-]; apply extends_refl|].
    case_decide; [intros [= <-]; apply extends_refl|].
    destruct (for_fields _ _ _) as [w|]; simpl; [|done].
    intros [= <-]. apply extends_write_line.
Qed.

(** * What the relation fact lists *)

Lemma record_of_canonical (qt : QualType) :
  record_of (getCanonicalType qt) = record_of qt.
Proof. induction qt; simpl; auto. Qed.

Lemma reaches_record_of (ast : AST) (qt qt' : QualType) (t : nat) :
  record_of qt = record_of qt' → reaches ast qt t → reaches ast qt' t.
Proof.
  intros Heq Hreach. destruct Hreach as [qt rt Hrt|qt rt def f t Hrt Hdef Hf Ht].
  - apply reaches_here. congruence.
  - eapply reaches_field; eauto. congruence.
Qed.

Lemma record_name_eq (rd : RecordDecl) :
  record_name rd =
  (if decide (getNameAsString rd = "") then
     match getTypedefNameForAnonDecl rd with
     | Some anon => anon
     | None => getNameAsString rd
     end
   else getNameAsString rd).
Proof. reflexivity. Qed.

(** [visit_record], with the name it records spelled [record_name]. *)
Lemma visit_record_eq (ast : AST) (visit : QualType → Walk → option Walk)
    (rt : nat) (w : Walk) :
  visit_record ast visit rt w =
  let w0 := if decide (record_name (ast !!! rt) = "") then w
            else insert_nested (record_name (ast !!! rt)) w in
  match getDefinition (ast !!! rt) with
  | Some def =>
      if decide (def ∈ visited w0) then Some w0
      else for_fields visit (fields (ast !!! def)) (insert_visited def w0)
  | None => Some w0
  end.
Proof. reflexivity. Qed.

Section Reach.
Context (ast : AST).

(** The names a walk adds are names of records that its type reaches. *)
Lemma collect_nested_structs_sound (fuel : nat) :
  ∀ qt w w', collect_nested_structs ast fuel qt w = Some w' →
    ∀ name, name ∈ nested w' →
      name ∈ nested w
      ∨ ∃ t, reaches ast qt t ∧ record_name (ast !!! t) = name ∧ name ≠ "".
Proof.
  induction fuel as [|fuel IH]; intros qt w w'; [done|].
  rewrite collect_nested_structs_unfold.
  pose proof (record_of_canonical qt) as Hrec.
  destruct (getCanonicalType qt) as [|p|e|n|a u|rt]; simpl in Hrec;
    try (intros [= <-]; auto).
  - intros Hp name Hname.
    destruct (IH _ _ _ Hp name Hname) as [?|(t & Ht & ?)]; [by left|right].
    exists t. split; [|done]. by apply (reaches_record_of ast p qt).
  - intros He name Hname.
    destruct (IH _ _ _ He name Hname) as [?|(t & Ht & ?)]; [by left|right].
    exists t. split; [|done]. by apply (reaches_record_of ast e qt).
  - rewrite visit_record_eq. cbn zeta.
    set (w0 := if decide (_ = "") then w else _).
    assert (∀ name, name ∈ nested w0 →
              name ∈ nested w
              ∨ ∃ t, reaches ast qt t ∧ record_name (ast !!! t) = name
                     ∧ name ≠ "") as Hw0.
    { intros name. subst w0. case_decide as Hempty; [by left|].
      simpl. rewrite set_insert_elem_of. intros [->|?]; [right|by left].
      exists rt. split; [by apply reaches_here|done]. }
    destruct (getDefinition (ast !!! rt)) as [def|] eqn:Hdef;
      [|intros [= <-]; exact Hw0].
    case_decide as Hvis; [intros [= <-]; exact Hw0|].
    assert (∀ qs w1,
              (∀ f, f ∈ qs → f ∈ fields (ast !!! def)) →
              (∀ name, name ∈ nested w1 →
                 name ∈ nested w
                 ∨ ∃ t, reaches ast qt t ∧ record_name (ast !!! t) = name
                        ∧ name ≠ "") →
              for_fields (collect_nested_structs ast fuel) qs w1 = Some w' →
              ∀ name, name ∈ nested w' →
                name ∈ nested w
                ∨ ∃ t, reaches ast qt t ∧ record_name (ast !!! t) = name
                       ∧ name ≠ "") as Hloop.
    { induction qs as [|q qs IHq]; intros w1 Hin Hw1.
      - intros [= <-]. exact Hw1.
      - rewrite for_fields_cons.
        destruct (collect_nested_structs ast fuel q w1) as [w2|] eqn:Hq;
          [|done].
        apply IHq.
        + intros f Hf. apply Hin. by right.
        + intros name Hname.
          destruct (IH _ _ _ Hq name Hname) as [?|(t & Ht & ?)];
            [by apply Hw1|].
          right. exists t. split; [|done].
          eapply reaches_field; eauto. apply Hin. left. }
    apply Hloop; auto.
Qed.

Lemma covered_mono (w w' : Walk) (qt : QualType) :
  nested w ⊆ nested w' → visited w ⊆ visited w' →
  covered ast w qt → covered ast w' qt.
Proof.
  intros Hn Hv Hcov rt Hrt. destruct (Hcov rt Hrt) as [Hname Hdef].
  split; [intros Hne; apply Hn; auto|intros def Hd; apply Hv; eauto].
Qed.

Lemma walked_refl (w : Walk) : walked ast w w.
Proof.
  split; [set_solver|]. split; [set_solver|]. intros d Hd Hnew. done.
Qed.

Lemma walked_trans (w1 w2 w3 : Walk) :
  walked ast w1 w2 → walked ast w2 w3 → walked ast w1 w3.
Proof.
  intros (Hn1 & Hv1 & Hc1) (Hn2 & Hv2 & Hc2).
  split; [set_solver|]. split; [set_solver|].
  intros def Hdef Hnew f Hf.
  destruct (decide (def ∈ visited w2)) as [Hmid|Hmid].
  - apply (covered_mono w2 w3); [done|done|]. by apply (Hc1 def).
  - by apply (Hc2 def).
Qed.

Lemma for_fields_walked (visit : QualType → Walk → option Walk)
    (qts : list QualType) :
  (∀ qt w w', visit qt w = Some w' → walked ast w w' ∧ covered ast w' qt) →
  ∀ w w', for_fields visit qts w = Some w' →
    walked ast w w' ∧ ∀ qt, qt ∈ qts → covered ast w' qt.
Proof.
  intros Hvisit. induction qts as [|q qs IH]; intros w w'.
  - intros [= <-]. split; [apply walked_refl|].
    intros qt Hqt. by apply elem_of_nil in Hqt.
  - rewrite for_fields_cons. destruct (visit q w) as [w1|] eqn:Hq; [|done].
    intros Hrest. destruct (Hvisit _ _ _ Hq) as [Hw1 Hcov1].
    destruct (IH _ _ Hrest) as [Hw' Hcov'].
    split; [by apply (walked_trans w w1 w')|].
    intros qt [->|Hqt]%elem_of_cons; [|by apply Hcov'].
    destruct Hw' as (Hn & Hv & _). by apply (covered_mono w1 w').
Qed.

Lemma collect_nested_structs_walked (fuel : nat) :
  ∀ qt w w', collect_nested_structs ast fuel qt w = Some w' →
    walked ast w w' ∧ covered ast w' qt.
Proof.
  induction fuel as [|fuel IH]; intros qt w w'; [done|].
  rewrite collect_nested_structs_unfold.
  pose proof (record_of_canonical qt) as Hrec.
  pose proof (getCanonicalType_no_sugar qt) as Hno.
  destruct (getCanonicalType qt) as [|p|e|n|a u|rt]; simpl in Hrec;
    try contradiction.
  - intros [= <-]. split; [apply walked_refl|]. intros rt Hrt. congruence.
  - intros Hp. destruct (IH _ _ _ Hp) as [Hw Hcov]. split; [done|].
    intros rt Hrt. apply Hcov. congruence.
  - intros He. destruct (IH _ _ _ He) as [Hw Hcov]. split; [done|].
    intros rt Hrt. apply Hcov. congruence.
  - rewrite visit_record_eq. cbn zeta.
    set (w0 := if decide (_ = "") then w else _).
    assert (nested w ⊆ nested w0 ∧ visited w0 = visited w
            ∧ (record_name (ast !!! rt) ≠ "" →
               record_name (ast !!! rt) ∈ nested w0)) as (Hn0 & Hv0 & Hname0).
    { subst w0. case_decide as Hempty; [by repeat split|].
      simpl. repeat split.
      - intros x Hx. apply set_insert_elem_of. by right.
      - intros _. apply set_insert_elem_of. by left. }
    assert (walked ast w w0) as Hw0.
    { split; [done|]. split; [by rewrite Hv0|].
      intros def Hdef Hnew. by rewrite Hv0 in Hdef. }
    destruct (getDefinition (ast !!! rt)) as [def|] eqn:Hdef.
    2:{ intros [= <-]. split; [done|]. intros rt' Hrt'.
        assert (rt' = rt) as -> by congruence.
        split; [done|]. intros d Hd. congruence. }
    case_decide as Hvis.
    { intros [= <-]. split; [done|]. intros rt' Hrt'.
      assert (rt' = rt) as -> by congruence.
      split; [done|]. intros d Hd. congruence. }
    intros Hloop.
    destruct (for_fields_walked _ _ (IH) _ _ Hloop) as [(Hn & Hv & Hc) Hfields].
    simpl in Hn, Hv.
    split.
    + split; [set_solver|]. split; [set_solver|].
      intros d Hd Hnew f Hf.
      destruct (decide (d = def)) as [->|Hne]; [by apply Hfields|].
      apply (Hc d); [done| |done]. simpl. set_solver.
    + intros rt' Hrt'. assert (rt' = rt) as -> by congruence. split.
      * intros Hne. apply Hn. auto.
      * intros d Hd. assert (d = def) as -> by congruence.
        apply Hv. set_solver.
Qed.

(** Once every field of every visited definition is accounted for, so is
    everything that an accounted type reaches. *)
Lemma reaches_covered (w : Walk) :
  (∀ def, def ∈ visited w → ∀ f, f ∈ fields (ast !!! def) → covered ast w f) →
  ∀ qt t, reaches ast qt t → covered ast w qt →
    record_name (ast !!! t) ≠ "" → record_name (ast !!! t) ∈ nested w.
Proof.
  intros Hclosed qt t Hreach.
  induction Hreach as [qt rt Hrt|qt rt def f t Hrt Hdef Hf Ht IH];
    intros Hcov Hname.
  - by apply (Hcov rt Hrt).
  - apply IH; [|done]. apply (Hclosed def); [|done].
    by apply (Hcov rt Hrt).
Qed.

End Reach.

Lemma for_fields_sound (ast : AST) (fuel : nat) (qts : list QualType) :
  ∀ w w', for_fields (collect_nested_structs ast fuel) qts w = Some w' →
    ∀ name, name ∈ nested w' →
      name ∈ nested w
      ∨ ∃ field t, field ∈ qts ∧ reaches ast field t
                   ∧ record_name (ast !!! t) = name ∧ name ≠ "".
Proof.
  induction qts as [|q qs IH]; intros w w'.
  - intros [= <-]. auto.
  - rewrite for_fields_cons.
    destruct (collect_nested_structs ast fuel q w) as [w1|] eqn:Hq; [|done].
    intros Hrest name Hname.
    destruct (IH _ _ Hrest name Hname) as [Hw1|(f & t & Hf & Ht & Hn)].
    + destruct (collect_nested_structs_sound ast fuel _ _ _ Hq name Hw1)
        as [?|(t & Ht & Hn)]; [by left|].
      right. exists q, t. split; [left|done].
    + right. exists f, t. split; [by right|done].
Qed.

(** The names collected by the walk that [output_struct_relations] starts:
    those, not empty, of the records that the fields of the record reach. *)
Lemma relation_walk_names (ast : AST) (fuel : nat) (decl : nat) (w : Walk) :
  for_fields (collect_nested_structs ast fuel) (fields (ast !!! decl))
    {| nested := []; visited := {[decl]} |} = Some w →
  ∀ name, name ∈ nested w ↔
    name ≠ "" ∧ ∃ field t, field ∈ fields (ast !!! decl) ∧ reaches ast field t
                           ∧ record_name (ast !!! t) = name.
Proof.
  intros Hw name. split.
  - intros Hname.
    destruct (for_fields_sound ast fuel _ _ _ Hw name Hname)
      as [Hnil|(f & t & Hf & Ht & Hn & Hne)].
    + by apply elem_of_nil in Hnil.
    + split; [done|]. by exists f, t.
  - intros (Hne & f & t & Hf & Ht & Hn).
    destruct (for_fields_walked ast _ _ (collect_nested_structs_walked ast fuel)
                _ _ Hw) as [(_ & _ & Hnew) Hfields].
    subst name. apply (reaches_covered ast w) with (qt := f); auto.
    intros def Hdef g Hg.
    destruct (decide (def = decl)) as [->|Hother]; [by apply Hfields|].
    apply (Hnew def); [done| |done]. simpl. set_solver.
Qed.

(** X4.  The relation fact of a record lists exactly the names, not empty,
    of the records that its fields reach: the record a field type leads to
    through pointers, arrays and sugar, and in turn the records that the
    fields of its definition reach.  A record without a name is passed
    through, a record without a definition is named and not entered. *)
Theorem relation_fact_lists_reachable (ast : AST) (fuel : nat) (decl : nat)
    (output_file_name struct_name : string) (σ : State) :
  let rd : RecordDecl := ast !!! decl in
  let structName := resolve_structName rd struct_name in
  let key_name :=
    fact_key (filenameWithLine (getBeginLoc rd)) structName output_file_name in
  structName ≠ "" →
  key_name ∉ existing_filenames σ →
  relations_fuel ast ≤ fuel →
  ∃ names : list string,
    output_struct_relations ast fuel decl output_file_name struct_name σ
    = Some (write_line output_file_name (relation_fact structName names)
              (claim key_name σ))
    ∧ ∀ name, name ∈ names ↔
        name ≠ "" ∧ ∃ field t, field ∈ fields rd ∧ reaches ast field t
                               ∧ record_name (ast !!! t) = name.
Proof.
  intros rd structName key_name Hname Hkey Hfuel.
  destruct (output_struct_relations_fresh ast fuel decl output_file_name
              struct_name σ Hname Hkey Hfuel) as (w & Hw & _ & Hout).
  exists (nested w). split; [exact Hout|].
  by apply (relation_walk_names ast fuel decl).
Qed.

Lemma relation_fact_lists_reachable_witness :
  ∃ names : list string,
    output_struct_relations ast_opaque (relations_fuel ast_opaque) 0
      "rel.json" "" empty_state
    = Some (write_line "rel.json" (relation_fact "R" names)
              (claim "/src/types.h:2+R+rel.json" empty_state))
    ∧ ∀ name, name ∈ names ↔
        name ≠ "" ∧ ∃ field t,
          field ∈ [ElaboratedType (RecordType 1); OtherType]
          ∧ reaches ast_opaque field t
          ∧ record_name (ast_opaque !!! t) = name.
Proof.
  apply (relation_fact_lists_reachable ast_opaque (relations_fuel ast_opaque) 0
           "rel.json" "" empty_state).
  - discriminate.
  - intros Hin. by apply not_elem_of_empty in Hin.
  - apply le_n.
Defined.

Example opaque_record_named_not_entered :
  output_struct_relations ast_opaque (relations_fuel ast_opaque) 0
    "rel.json" "" empty_state
  = Some (write_line "rel.json" (relation_fact "R" ["Inner"])
            (claim "/src/types.h:2+R+rel.json" empty_state)).
Proof. reflexivity. Qed.

(** Two strictly increasing lists with the same elements are one list. *)
Lemma sorted_strings_unique (l1 l2 : list string) :
  Sorted string_lt l1 → Sorted string_lt l2 →
  (∀ x, x ∈ l1 ↔ x ∈ l2) → l1 = l2.
Proof.
  intros H1 H2.
  apply Sorted_StronglySorted in H1; [|exact string_lt_trans].
  apply Sorted_StronglySorted in H2; [|exact string_lt_trans].
  revert l2 H2. induction H1 as [|a l1 Hs1 IH Ha]; intros l2 H2 Hsame.
  - destruct l2 as [|b l2]; [done|].
    exfalso. apply (elem_of_nil b), Hsame. left.
  - destruct H2 as [|b l2 Hs2 Hb].
    { exfalso. apply (elem_of_nil a), Hsame. left. }
    rewrite List.Forall_forall in Ha, Hb.
    assert (a = b) as <-.
    { assert (a ∈ b :: l2) as Hab by (apply Hsame; left).
      assert (b ∈ a :: l1) as Hba by (apply Hsame; left).
      apply elem_of_cons in Hab as [?|Hab]; [done|].
      apply elem_of_cons in Hba as [?|Hba]; [done|].
      apply list_elem_of_In, Hb in Hab. apply list_elem_of_In, Ha in Hba.
      destruct (string_lt_irrefl a). by apply (string_lt_trans a b a). }
    f_equal. apply IH; [done|].
    intros x. split; intros Hx.
    + assert (x ∈ a :: l2) as [->|?]%elem_of_cons by (apply Hsame; by right);
        [|done].
      apply list_elem_of_In, Ha in Hx. by destruct (string_lt_irrefl a).
    + assert (x ∈ a :: l1) as [->|?]%elem_of_cons by (apply Hsame; by right);
        [|done].
      apply list_elem_of_In, Hb in Hx. by destruct (string_lt_irrefl a).
Qed.

Lemma reaches_field_order (ast1 ast2 : AST) (qt : QualType) (t : nat) :
  same_up_to_field_order ast1 ast2 → reaches ast1 qt t → reaches ast2 qt t.
Proof.
  intros Hsame Hreach.
  induction Hreach as [qt rt Hrt|qt rt def f t Hrt Hdef Hf Ht IH].
  - by apply reaches_here.
  - destruct (Hsame rt) as (_ & _ & Hd & _).
    destruct (Hsame def) as (_ & _ & _ & Hperm).
    apply (reaches_field ast2 qt rt def f t); [done|congruence| |done].
    by rewrite <- Hperm.
Qed.

Lemma same_up_to_field_order_sym (ast1 ast2 : AST) :
  same_up_to_field_order ast1 ast2 → same_up_to_field_order ast2 ast1.
Proof.
  intros Hsame decl. destruct (Hsame decl) as (? & ? & ? & ?). by repeat split.
Qed.

(** X5.  The order of the fields does not matter: on two ASTs that differ
    only in the order in which records list their fields,
    [output_struct_relations] returns the same state, whatever depths are
    allowed beyond those that suffice. *)
Theorem relation_fact_field_order (ast1 ast2 : AST) (fuel1 fuel2 : nat)
    (decl : nat) (output_file_name struct_name : string) (σ : State) :
  same_up_to_field_order ast1 ast2 →
  relations_fuel ast1 ≤ fuel1 →
  relations_fuel ast2 ≤ fuel2 →
  output_struct_relations ast1 fuel1 decl output_file_name struct_name σ
  = output_struct_relations ast2 fuel2 decl output_file_name struct_name σ.
Proof.
  intros Hsame Hfuel1 Hfuel2.
  destruct (Hsame decl) as (Hbase & Hanon & _ & Hperm).
  assert (resolve_structName (ast1 !!! decl) struct_name
          = resolve_structName (ast2 !!! decl) struct_name) as Hname.
  { unfold resolve_structName. by rewrite Hbase, Hanon. }
  destruct (decide (resolve_structName (ast1 !!! decl) struct_name = ""))
    as [Hempty|Hnamed].
  { unfold output_struct_relations.
    rewrite <- Hname, !(decide_True (P := _ = "")) by done. reflexivity. }
  destruct (decide (fact_key
                      (filenameWithLine (getBeginLoc (record_base (ast1 !!! decl))))
                      (resolve_structName (ast1 !!! decl) struct_name)
                      output_file_name ∈ existing_filenames σ)) as [Hseen|Hfresh].
  { rewrite !output_struct_relations_claimed; [done| |done].
    cbn zeta. by rewrite <- Hname, <- Hbase. }
  destruct (output_struct_relations_fresh ast1 fuel1 decl output_file_name
              struct_name σ Hnamed Hfresh Hfuel1) as (w1 & Hw1 & Hs1 & ->).
  destruct (output_struct_relations_fresh ast2 fuel2 decl output_file_name
              struct_name σ) as (w2 & Hw2 & Hs2 & ->).
  { by rewrite <- Hname. }
  { by rewrite <- Hname, <- Hbase. }
  { done. }
  rewrite <- Hname, <- Hbase. do 3 f_equal.
  apply sorted_strings_unique; [done|done|].
  intros name.
  rewrite (relation_walk_names ast1 fuel1 decl w1 Hw1 name).
  rewrite (relation_walk_names ast2 fuel2 decl w2 Hw2 name).
  split; intros (Hne & f & t & Hf & Ht & Hn); (split; [done|]); exists f, t.
  - destruct (Hsame t) as (Hb & Ha & _ & _).
    split; [by rewrite <- Hperm|].
    split; [by apply (reaches_field_order ast1 ast2)|].
    rewrite <- Hn. unfold record_name, resolve_structName.
    by rewrite Hb, Ha.
  - destruct (Hsame t) as (Hb & Ha & _ & _).
    split; [by rewrite Hperm|].
    split.
    { apply (reaches_field_order ast2 ast1); [|done].
      by apply same_up_to_field_order_sym. }
    rewrite <- Hn. unfold record_name, resolve_structName.
    by rewrite Hb, Ha.
Qed.

Lemma same_fields_elsewhere :
  same_up_to_field_order ast_unordered ast_reordered.
Proof.
  intros decl. unfold ast_unordered, ast_reordered.
  destruct decl as [|[|[|decl]]].
  - repeat split. simpl. apply Permutation_swap.
  - by repeat split.
  - by repeat split.
  - rewrite !lookup_total_alt.
    rewrite !lookup_insert_ne, !lookup_singleton_ne by lia. by repeat split.
Qed.

Lemma relation_fact_field_order_witness :
  output_struct_relations ast_unordered (relations_fuel ast_unordered) 0
    "rel.json" "" empty_state
  = output_struct_relations ast_reordered (relations_fuel ast_reordered) 0
      "rel.json" "" empty_state.
Proof.
  apply (relation_fact_field_order ast_unordered ast_reordered
           (relations_fuel ast_unordered) (relations_fuel ast_reordered) 0
           "rel.json" "" empty_state same_fields_elsewhere); apply le_n.
Defined.

(** * Lines and keys *)



(** X7.  A fact once emitted stays suppressed.  After a call of an emitter,
    in every later state (one that extends the state the call left), the
    same call appends nothing and claims nothing: [output_enum_values] and
    [output_struct_relations] return the state as it is, [output_decl]
    leaves the registry and the lines of every file as they are. *)
Theorem emitted_fact_stays_suppressed :
  (∀ (decl : NamedDecl) (output_file_name : string) (t1 t2 : bool)
     (alias_name : string) (σ σ2 : State),
     extends (output_decl decl output_file_name t1 alias_name σ) σ2 →
     let σ3 := output_decl decl output_file_name t2 alias_name σ2 in
     existing_filenames σ3 = existing_filenames σ2
     ∧ ∀ name : string,
         default [] (output_files σ3 !! name)
         = default [] (output_files σ2 !! name))
  ∧ (∀ (decl : EnumDecl) (output_file_name : string) (σ σ2 : State),
       extends (output_enum_values decl output_file_name σ) σ2 →
       output_enum_values decl output_file_name σ2 = σ2)
  ∧ (∀ (ast : AST) (fuel fuel' : nat) (decl : nat)
       (output_file_name struct_name : string) (σ σ1 σ2 : State),
       output_struct_relations ast fuel decl output_file_name struct_name σ
       = Some σ1 →
       extends σ1 σ2 →
       output_struct_relations ast fuel' decl output_file_name struct_name σ2
       = Some σ2).
Proof.
  split; [|split].
  - intros decl out t1 t2 alias σ σ2 [Hkeys _] σ3. subst σ3.
    rewrite output_decl_claimed.
    + split; [apply open_app_keys|]. intros name.
      destruct (decide (out ∈ unopenable σ2)) as [Hfail|Hopen].
      { by rewrite open_app_fail. }
      rewrite open_app_ok by done. simpl.
      destruct (decide (out = name)) as [->|Hne].
      * by rewrite lookup_insert_eq.
      * by rewrite lookup_insert_ne.
    + apply Hkeys.
      destruct (decide (decl_key (filenameWithLine (getBeginLoc decl))
                          (getNameAsString decl) out alias
                        ∈ existing_filenames σ)) as [Hseen|Hfresh].
      * rewrite output_decl_claimed by done. by rewrite open_app_keys.
      * rewrite output_decl_fresh by done. rewrite write_line_keys. simpl.
        set_solver.
  - intros decl out σ σ2 [Hkeys _].
    destruct (decide (getNameAsString decl = "")) as [Hempty|Hnamed].
    { unfold output_enum_values. by rewrite decide_True. }
    apply output_enum_values_claimed, Hkeys.
    destruct (decide (fact_key (filenameWithLine (getBeginLoc decl))
                        (getNameAsString decl) out
                      ∈ existing_filenames σ)) as [Hseen|Hfresh].
    + by rewrite output_enum_values_claimed.
    + rewrite output_enum_values_fresh by done. rewrite write_line_keys.
      simpl. set_solver.
  - intros ast fuel fuel' decl out sname σ σ1 σ2 Hout [Hkeys _].
    destruct (decide (resolve_structName (ast !!! decl) sname = ""))
      as [Hempty|Hnamed].
    { unfold output_struct_relations. by rewrite decide_True. }
    apply output_struct_relations_claimed. cbn zeta. apply Hkeys.
    revert Hout. unfold output_struct_relations.
    rewrite (decide_False (P := _ = "")) by done.
    case_decide as Hkey; [by intros [= <-]|].
    destruct (for_fields _ _ _) as [w|]; simpl; [|done].
    intros [= <-]. rewrite write_line_keys. simpl. set_solver.
Qed.

Lemma emitted_fact_stays_suppressed_witness :
  output_struct_relations ast_mutual 4 0 "rel.json" ""
    (write_line "rel.json" (relation_fact "B" ["A"; "B"])
       (claim "/src/types.h:3+B+rel.json"
          (write_line "rel.json" (relation_fact "A" ["A"; "B"])
             (claim "/src/types.h:2+A+rel.json" empty_state))))
  = Some (write_line "rel.json" (relation_fact "B" ["A"; "B"])
            (claim "/src/types.h:3+B+rel.json"
               (write_line "rel.json" (relation_fact "A" ["A"; "B"])
                  (claim "/src/types.h:2+A+rel.json" empty_state)))).
Proof.
  destruct emitted_fact_stays_suppressed as (_ & _ & Hrel).
  apply (Hrel ast_mutual 4 4 0 "rel.json" "" empty_state
           (write_line "rel.json" (relation_fact "A" ["A"; "B"])
              (claim "/src/types.h:2+A+rel.json" empty_state))).
  - reflexivity.
  - apply extends_write_line.
Defined.

(** * Location strings *)

Lemma pretty_N_char_no_colon (x : N) : pretty_N_char x ≠ ":"%char.
Proof. unfold pretty_N_char. by repeat case_match. Qed.

Lemma pretty_N_go_no_colon (x : N) :
  ∀ s, has_colon s = false → has_colon (pretty_N_go x s) = false.
Proof.
  induction (N.lt_wf_0 x) as [x _ IH]; intros s Hs.
  destruct (decide (x = 0%N)) as [->|Hpos]; [by rewrite pretty_N_go_0|].
  rewrite pretty_N_go_step by lia. apply IH.
  - apply N.div_lt; lia.
  - simpl. rewrite decide_False by apply pretty_N_char_no_colon. exact Hs.
Qed.

Lemma pretty_N_no_colon (x : N) : has_colon (pretty x) = false.
Proof.
  unfold pretty, pretty_N. case_decide; [reflexivity|].
  by apply pretty_N_go_no_colon.
Qed.

Lemma has_colon_app (s r : string) : has_colon (s +:+ String ":" r) = true.
Proof.
  induction s as [|c s IH]; simpl; [reflexivity|]. by case_decide.
Qed.

Lemma append_colon_inj (s s' r r' : string) :
  has_colon r = false → has_colon r' = false →
  s +:+ String ":" r = s' +:+ String ":" r' → s = s' ∧ r = r'.
Proof.
  revert s'. induction s as [|c s IH]; intros [|c' s']; simpl;
    intros Hr Hr' Heq.
  - injection Heq as Heq. by subst.
  - injection Heq as _ Heq. rewrite Heq, has_colon_app in Hr. discriminate.
  - injection Heq as _ Heq. rewrite <- Heq, has_colon_app in Hr'. discriminate.
  - injection Heq as Hc Heq. subst c'.
    by destruct (IH s' Hr Hr' Heq) as [-> ->].
Qed.

(** X8.  The location string of the keys and of the ["filename"] member
    tells files and lines apart: two locations with the same string have
    the same file part (path of the file entry, or printed location) and
    the same spelling line number, even when the file part itself contains
    colons or digits. *)
Theorem location_string_inj (loc1 loc2 : SourceLocation) :
  filenameWithLine loc1 = filenameWithLine loc2 ↔
  location_file loc1 = location_file loc2
  ∧ getSpellingLineNumber loc1 = getSpellingLineNumber loc2.
Proof.
  split.
  - unfold filenameWithLine. fold (location_file loc1) (location_file loc2).
    intros Heq.
    apply append_colon_inj in Heq as [Hfile Hline];
      [|apply pretty_N_no_colon..].
    split; [exact Hfile|]. by apply (inj pretty).
  - unfold filenameWithLine. fold (location_file loc1) (location_file loc2).
    by intros [-> ->].
Qed.

(** * The members of the enum fact *)

Lemma object_set_keys (key : string) (v : json)
    (members : list (string * json)) :
  fst <$> object_set key v members = set_insert key (fst <$> members).
Proof.
  induction members as [|[k x] rest IH]; simpl; [reflexivity|].
  destruct (String.compare key k) eqn:Hc; simpl.
  - apply String.compare_eq_iff in Hc as ->. reflexivity.
  - reflexivity.
  - f_equal. exact IH.
Qed.

Lemma enum_values_keys (ecds : list EnumConstantDecl) :
  Sorted string_lt (object_keys (enum_values ecds))
  ∧ ∀ key, key ∈ object_keys (enum_values ecds) ↔
      ∃ ecd : EnumConstantDecl, ecd ∈ ecds ∧ getNameAsString ecd = key.
Proof.
  induction ecds as [|last ecds [IHs IHk]] using rev_ind.
  - split; [constructor|]. intros key. simpl. split.
    + intros Hin. by apply elem_of_nil in Hin.
    + intros (ecd & Hin & _). by apply elem_of_nil in Hin.
  - destruct (enum_values_object ecds) as [members Hobj].
    unfold enum_values in *. rewrite foldl_snoc, Hobj in *. simpl in *.
    rewrite object_set_keys. split; [by apply set_insert_sorted|].
    intros key. rewrite set_insert_elem_of, IHk. split.
    + intros [->|(ecd & Hin & Hname)].
      * exists last. split; [|reflexivity]. apply elem_of_app. right. left.
      * exists ecd. split; [|exact Hname]. apply elem_of_app. by left.
    + intros (ecd & Hin & Hname). apply elem_of_app in Hin as [Hin|Hin].
      * right. by exists ecd.
      * apply list_elem_of_singleton in Hin as ->. by left.
Qed.

(** X9.  The enum fact of a first emission holds one object under the name
    of the enum; the keys of that object are the names of the enumerators,
    each once and in increasing order, and nothing else.  An enum without
    enumerators is emitted with an empty object. *)
Theorem enum_fact_members (decl : EnumDecl) (output_file_name : string)
    (σ : State) :
  getNameAsString decl ≠ "" →
  fact_key (filenameWithLine (getBeginLoc decl)) (getNameAsString decl)
    output_file_name ∉ existing_filenames σ →
  ∃ values,
    output_enum_values decl output_file_name σ
    = write_line output_file_name
        (json_object [(getNameAsString decl, values)])
        (claim (fact_key (filenameWithLine (getBeginLoc decl))
                  (getNameAsString decl) output_file_name) σ)
    ∧ (∃ members, values = json_object members)
    ∧ StronglySorted string_lt (object_keys values)
    ∧ (∀ key, key ∈ object_keys values ↔
         ∃ ecd : EnumConstantDecl,
           ecd ∈ enumerators decl ∧ getNameAsString ecd = key)
    ∧ (enumerators decl = [] → values = json_object []).
Proof.
  intros Hname Hkey. exists (enum_values (enumerators decl)).
  destruct (enum_values_keys (enumerators decl)) as [Hsorted Hkeys].
  split; [|split; [|split; [|split]]].
  - unfold output_enum_values.
    rewrite (decide_False (P := getNameAsString decl = "")) by exact Hname.
    by rewrite decide_False by exact Hkey.
  - apply enum_values_object.
  - apply Sorted_StronglySorted; [exact string_lt_trans|exact Hsorted].
  - exact Hkeys.
  - by intros ->.
Qed.

Lemma enum_fact_members_witness :
  ∃ values,
    output_enum_values enum_level "enum.json" empty_state
    = write_line "enum.json" (json_object [("Level", values)])
        (claim "/src/types.h:7+Level+enum.json" empty_state)
    ∧ (∃ members, values = json_object members)
    ∧ StronglySorted string_lt (object_keys values)
    ∧ (∀ key, key ∈ object_keys values ↔
         ∃ ecd : EnumConstantDecl,
           ecd ∈ enumerators enum_level ∧ getNameAsString ecd = key)
    ∧ (enumerators enum_level = [] → values = json_object []).
Proof.
  apply (enum_fact_members enum_level "enum.json" empty_state).
  - discriminate.
  - intros Hin. by apply not_elem_of_empty in Hin.
Defined.

Example enum_level_fact :
  output_enum_values enum_level "enum.json" empty_state
  = write_line "enum.json"
      (json_object [("Level", json_object [("HIGH", json_integer 1);
                                           ("LOW", json_integer (-1))])])
      (claim "/src/types.h:7+Level+enum.json" empty_state).
Proof. reflexivity. Qed.

(** * Keys of different emitters *)

Lemma has_plus_app (s r : string) : has_plus (s +:+ String "+" r) = true.
Proof.
  induction s as [|c s IH]; simpl; [reflexivity|]. by case_decide.
Qed.

(** X12.  The emitters share one registry, but a declaration fact and an
    enum or relation fact do not suppress each other: when the separator
    ["+"] occurs neither in the location strings and names nor in the
    output file name of the enum or relation fact, the key of
    [output_decl] differs from the key of the two other emitters. *)
Theorem decl_and_fact_keys_differ
    (filename name output_file_name alias_name
     filename' name' output_file_name' : string) :
  has_plus filename = false → has_plus name = false →
  has_plus filename' = false → has_plus name' = false →
  has_plus output_file_name' = false →
  decl_key filename name output_file_name alias_name
  ≠ fact_key filename' name' output_file_name'.
Proof.
  intros Hf Hn Hf' Hn' Ho'. unfold decl_key, fact_key. intros Heq.
  apply append_plus_inj in Heq as [-> Heq]; [|done|done].
  apply append_plus_inj in Heq as [-> Heq]; [|done|done].
  rewrite <- Heq in Ho'.
  change ("+" +:+ alias_name) with (String "+" alias_name) in Ho'.
  by rewrite has_plus_app in Ho'.
Qed.

Lemma decl_and_fact_keys_differ_witness :
  decl_key "/src/types.h:7" "Level" "facts.json" ""
  ≠ fact_key "/src/types.h:7" "Level" "facts.json".
Proof.
  apply (decl_and_fact_keys_differ "/src/types.h:7" "Level" "facts.json" ""
           "/src/types.h:7" "Level" "facts.json"); reflexivity.
Defined.

(** * Keys of distinct tuples *)

Lemma key_injective_without_separator_witness :
  decl_key "/src/types.h:5" "f" "decl.json" ""
  ≠ decl_key "/src/types.h:5" "g" "decl.json" ""
  ∧ decl_key "/src/types.h:5" "f" "decl.json" ""
    ≠ decl_key "/src/types.h:6" "f" "decl.json" "T"
  ∧ fact_key "/src/types.h:7" "Level" "enum.json"
    ≠ fact_key "/src/types.h:7" "Level" "facts.json".
Proof.
  destruct key_injective_without_separator as [Hdecl Hfact].
  split; [|split]; intros Heq.
  - apply (Hdecl "/src/types.h:5" "f" "decl.json" ""
             "/src/types.h:5" "g" "decl.json" "") in Heq;
      [discriminate Heq|reflexivity..].
  - apply (Hdecl "/src/types.h:5" "f" "decl.json" ""
             "/src/types.h:6" "f" "decl.json" "T") in Heq;
      [discriminate Heq|reflexivity..].
  - apply (Hfact "/src/types.h:7" "Level" "enum.json"
             "/src/types.h:7" "Level" "facts.json") in Heq;
      [discriminate Heq|reflexivity..].
Defined.

(** * The values of the enumerators, by signedness *)

(** C7, as the code has it.  For a named enum not emitted before whose
    enumerators have distinct names, the fact maps every enumerator whose
    initializer is a single word to the sign extension of its bits.  That
    is the value the enumerator holds when the initializer is signed, or
    unsigned with its top bit clear: a negative value stays negative, [-1]
    is recorded as [-1].  An unsigned initializer with its top bit set is
    recorded as its value minus [2 ^ BitWidth], a negative integer. *)
Theorem enum_values_sign_extended (decl : EnumDecl) (output_file_name : string)
    (σ : State) (ecd : EnumConstantDecl) :
  getNameAsString decl ≠ "" →
  fact_key (filenameWithLine (getBeginLoc decl)) (getNameAsString decl)
    output_file_name ∉ existing_filenames σ →
  NoDup ((fun e : EnumConstantDecl => getNameAsString e) <$> enumerators decl) →
  ecd ∈ enumerators decl →
  single_word (getInitVal ecd) →
  ∃ values,
    output_enum_values decl output_file_name σ
    = write_line output_file_name
        (json_object [(getNameAsString decl, values)])
        (claim (fact_key (filenameWithLine (getBeginLoc decl))
                  (getNameAsString decl) output_file_name) σ)
    ∧ (IsUnsigned (getInitVal ecd) = false
       ∨ (VAL (getInitVal ecd)
          < 2 ^ (Z.of_N (BitWidth (getInitVal ecd)) - 1))%Z →
       json_get (getNameAsString ecd) values
       = Some (json_integer (APSInt_value (getInitVal ecd))))
    ∧ (IsUnsigned (getInitVal ecd) = true →
       (2 ^ (Z.of_N (BitWidth (getInitVal ecd)) - 1)
        ≤ VAL (getInitVal ecd))%Z →
       json_get (getNameAsString ecd) values
       = Some (json_integer (APSInt_value (getInitVal ecd)
                             - 2 ^ Z.of_N (BitWidth (getInitVal ecd)))))
    ∧ ∀ (w : N) (v : Z),
        getInitVal ecd = APSInt_of_Z w false v →
        (- 2 ^ (Z.of_N w - 1) ≤ v < 2 ^ (Z.of_N w - 1))%Z →
        json_get (getNameAsString ecd) values = Some (json_integer v).
Proof.
  intros Hname Hkey Hnodup Hin Hword.
  exists (enum_values (enumerators decl)).
  assert (json_get (getNameAsString ecd) (enum_values (enumerators decl))
          = Some (json_integer (signed_value (getInitVal ecd)))) as Hget.
  { rewrite (enum_values_get _ _ Hnodup Hin).
    by rewrite getSExtValue_single_word. }
  split; [|split; [|split]].
  - unfold output_enum_values.
    rewrite (decide_False (P := getNameAsString decl = "")) by exact Hname.
    by rewrite decide_False by exact Hkey.
  - intros Hsame. rewrite Hget. do 2 f_equal.
    unfold APSInt_value, signed_value.
    destruct (IsUnsigned (getInitVal ecd)); [|reflexivity].
    destruct Hsame as [?|Hlow]; [done|].
    destruct (Z.ltb_spec (VAL (getInitVal ecd))
                (2 ^ (Z.of_N (BitWidth (getInitVal ecd)) - 1))); [done|lia].
  - intros Hunsigned Hhigh. rewrite Hget. do 2 f_equal.
    unfold APSInt_value, signed_value. rewrite Hunsigned.
    destruct (Z.ltb_spec (VAL (getInitVal ecd))
                (2 ^ (Z.of_N (BitWidth (getInitVal ecd)) - 1))); [lia|done].
  - intros w v Hval Hv. rewrite Hget, Hval.
    rewrite signed_value_of_Z; [reflexivity| |exact Hv].
    destruct Hword as [Hw _]. rewrite Hval in Hw. simpl in Hw. lia.
Qed.

Lemma enum_values_sign_extended_witness :
  (∃ values,
     output_enum_values enum_level "enum.json" state_after_A
     = write_line "enum.json" (json_object [("Level", values)])
         (claim "/src/types.h:7+Level+enum.json" state_after_A)
     ∧ json_get "LOW" values = Some (json_integer (-1)))
  ∧ (∃ values,
       output_enum_values enum_flags "enum.json" state_after_A
       = write_line "enum.json" (json_object [("Flags", values)])
           (claim "/src/types.h:12+Flags+enum.json" state_after_A)
       ∧ json_get "HIGH_BIT" values
         = Some (json_integer (2147483648 - 2 ^ 32))).
Proof.
  assert (∀ key_name : string,
            key_name ≠ "/src/types.h:2+A+rel.json" →
            key_name ∉ existing_filenames state_after_A) as Hfresh.
  { intros key_name Hne Hin. simpl in Hin.
    by apply elem_of_singleton in Hin. }
  split.
  - destruct (enum_values_sign_extended enum_level "enum.json" state_after_A
                {| constant_base := declared "LOW" 7 "LOW = -1";
                   getInitVal := APSInt_of_Z 32 false (-1) |})
      as (values & Hout & Hsigned & _).
    + discriminate.
    + apply Hfresh. discriminate.
    + apply NoDup_cons. split; [|apply NoDup_singleton].
      intros Hin. apply list_elem_of_singleton in Hin. discriminate Hin.
    + left.
    + repeat split; vm_compute; first [reflexivity | discriminate].
    + exists values. split; [exact Hout|].
      exact (Hsigned (or_introl eq_refl)).
  - destruct (enum_values_sign_extended enum_flags "enum.json" state_after_A
                {| constant_base := declared "HIGH_BIT" 12 "HIGH_BIT = 0x80000000";
                   getInitVal := APSInt_of_Z 32 true 2147483648 |})
      as (values & Hout & _ & Hunsigned & _).
    + discriminate.
    + apply Hfresh. discriminate.
    + apply NoDup_singleton.
    + left.
    + repeat split; vm_compute; first [reflexivity | discriminate].
    + exists values. split; [exact Hout|].
      apply Hunsigned; [reflexivity|]. vm_compute. discriminate.
Defined.

(** C7, as the specification states it, fails: the enumerator
    [HIGH_BIT = 0x80000000] of [enum Flags] holds 2147483648, in 32 bits
    without sign, and the fact records -2147483648. *)
Lemma unsigned_enumerator_recorded_negative :
  output_enum_values enum_flags "enum.json" empty_state
  = write_line "enum.json"
      (json_object [("Flags",
                     json_object [("HIGH_BIT", json_integer (-2147483648))])])
      (claim "/src/types.h:12+Flags+enum.json" empty_state)
  ∧ APSInt_value (APSInt_of_Z 32 true 2147483648) = 2147483648%Z
  ∧ output_files (output_enum_values enum_flags "enum.json" empty_state)
    ≠ output_files
        (write_line "enum.json"
           (json_object [("Flags",
                          json_object [("HIGH_BIT", json_integer 2147483648)])])
           (claim "/src/types.h:12+Flags+enum.json" empty_state)).
Proof.
  split; [reflexivity|]. split; [reflexivity|].
  intros Heq. apply (f_equal (fun files => files !! "enum.json")) in Heq.
  vm_compute in Heq. discriminate Heq.
Qed.

(** * Emissions that reach the file *)

Lemma dump_ok_names (names : list string) :
  forallb dump_ok (json_string <$> names) = forallb valid_utf8 names.
Proof.
  induction names as [|name names IH]; [reflexivity|].
  change (valid_utf8 name && forallb dump_ok (json_string <$> names)
          = valid_utf8 name && forallb valid_utf8 names).
  by rewrite IH.
Qed.

Lemma relation_fact_dump_ok (record_name : string) (names : list string) :
  dump_ok (relation_fact record_name names)
  = valid_utf8 record_name && forallb valid_utf8 names.
Proof.
  change (dump_ok (relation_fact record_name names))
    with (valid_utf8 record_name
          && forallb dump_ok (json_string <$> names) && true).
  by rewrite dump_ok_names, andb_true_r.
Qed.

(** The relation fact can be dumped when the name it is reported under and
    the names of the records of the AST are valid UTF-8. *)
Lemma relation_walk_dump_ok (ast : AST) (fuel : nat) (decl : nat) (w : Walk)
    (structName : string) :
  for_fields (collect_nested_structs ast fuel) (fields (ast !!! decl))
    {| nested := []; visited := {[decl]} |} = Some w →
  valid_utf8 structName = true →
  (∀ rt : nat, valid_utf8 (record_name (ast !!! rt)) = true) →
  dump_ok (relation_fact structName (nested w)) = true.
Proof.
  intros Hw Hname Hnames. rewrite relation_fact_dump_ok, Hname. simpl.
  apply forallb_forall. intros name Hin. apply list_elem_of_In in Hin.
  apply (relation_walk_names ast fuel decl w Hw) in Hin
    as (_ & f & t & _ & _ & <-).
  apply Hnames.
Qed.

Lemma ast_mutual_names_valid (rt : nat) :
  valid_utf8 (record_name (ast_mutual !!! rt)) = true.
Proof.
  unfold ast_mutual. destruct rt as [|[|rt]]; [reflexivity..|].
  rewrite lookup_total_alt.
  by rewrite lookup_insert_ne, lookup_singleton_ne by lia.
Qed.

(** C3.  Emitting the same fact twice leaves one line, where the line can be
    written.  Two calls of [output_decl] that agree on the location string,
    the name, the output file and the alias name: when the key is not in
    the registry, the output file can be opened and the fact can be dumped,
    the first call appends the fact to the output file and changes no other
    file, and the second returns the state as the first left it.  The same
    holds for two calls of [output_enum_values] on a named enum and for two
    calls of [output_struct_relations] on a record whose name resolves. *)
Theorem emitting_twice_appends_once :
  (∀ (d1 d2 : NamedDecl) (output_file_name : string) (t1 t2 : bool)
     (alias_name : string) (σ : State),
     filenameWithLine (getBeginLoc d2) = filenameWithLine (getBeginLoc d1) →
     getNameAsString d2 = getNameAsString d1 →
     decl_key (filenameWithLine (getBeginLoc d1)) (getNameAsString d1)
       output_file_name alias_name ∉ existing_filenames σ →
     output_file_name ∉ unopenable σ →
     dump_ok (decl_fact d1 t1 alias_name) = true →
     let σ1 := output_decl d1 output_file_name t1 alias_name σ in
     output_files σ1
     = <[output_file_name :=
           default [] (output_files σ !! output_file_name)
           ++ [decl_fact d1 t1 alias_name]]>
         (output_files σ)
     ∧ output_decl d2 output_file_name t2 alias_name σ1 = σ1)
  ∧ (∀ (d1 d2 : EnumDecl) (output_file_name : string) (σ : State),
       filenameWithLine (getBeginLoc d2) = filenameWithLine (getBeginLoc d1) →
       getNameAsString d2 = getNameAsString d1 →
       getNameAsString d1 ≠ "" →
       fact_key (filenameWithLine (getBeginLoc d1)) (getNameAsString d1)
         output_file_name ∉ existing_filenames σ →
       output_file_name ∉ unopenable σ →
       dump_ok (enum_fact d1) = true →
       let σ1 := output_enum_values d1 output_file_name σ in
       output_files σ1
       = <[output_file_name :=
             default [] (output_files σ !! output_file_name) ++ [enum_fact d1]]>
           (output_files σ)
       ∧ output_enum_values d2 output_file_name σ1 = σ1)
  ∧ (∀ (ast : AST) (fuel : nat) (decl : nat)
       (output_file_name struct_name : string) (σ : State),
       let rd : RecordDecl := ast !!! decl in
       resolve_structName rd struct_name ≠ "" →
       fact_key (filenameWithLine (getBeginLoc rd))
         (resolve_structName rd struct_name) output_file_name
         ∉ existing_filenames σ →
       relations_fuel ast ≤ fuel →
       output_file_name ∉ unopenable σ →
       valid_utf8 (resolve_structName rd struct_name) = true →
       (∀ rt : nat, valid_utf8 (record_name (ast !!! rt)) = true) →
       ∃ σ1 names,
         output_struct_relations ast fuel decl output_file_name struct_name σ
         = Some σ1
         ∧ output_files σ1
           = <[output_file_name :=
                 default [] (output_files σ !! output_file_name)
                 ++ [relation_fact (resolve_structName rd struct_name) names]]>
               (output_files σ)
         ∧ output_struct_relations ast fuel decl output_file_name struct_name σ1
           = Some σ1).
Proof.
  split; [|split].
  - intros d1 d2 out t1 t2 alias σ Hloc Hname Hkey Hopen Hdump σ1.
    subst σ1. rewrite output_decl_fresh by exact Hkey. split.
    + by apply output_files_appended.
    + rewrite output_decl_claimed.
      * apply open_app_opened.
      * rewrite Hloc, Hname, write_line_keys. simpl. set_solver.
  - intros d1 d2 out σ Hloc Hname Hnamed Hkey Hopen Hdump σ1.
    subst σ1. rewrite output_enum_values_fresh by done. split.
    + by rewrite write_line_ok.
    + apply output_enum_values_claimed.
      rewrite Hloc, Hname, write_line_keys. simpl. set_solver.
  - intros ast fuel decl out sname σ rd Hnamed Hkey Hfuel Hopen Hvalid Hnames.
    destruct (output_struct_relations_fresh ast fuel decl out sname σ
                Hnamed Hkey Hfuel) as (w & Hw & _ & Hout).
    eexists. exists (nested w). split; [exact Hout|]. split.
    + rewrite write_line_ok; [reflexivity|exact Hopen|].
      by apply (relation_walk_dump_ok ast fuel decl).
    + apply output_struct_relations_claimed. cbn zeta.
      rewrite write_line_keys. simpl. set_solver.
Qed.

Lemma emitting_twice_appends_once_witness :
  (let σ1 := output_decl (declared "f" 5 "int f(void);") "rel.json" false ""
               state_after_A in
   output_files σ1
   = <[ "rel.json" :=
          [relation_fact "A" ["A"; "B"]]
          ++ [decl_fact (declared "f" 5 "int f(void);") false ""] ]>
       {[ "rel.json" := [relation_fact "A" ["A"; "B"]] ]}
   ∧ output_decl (declared "f" 5 "int f(void);") "rel.json" true "" σ1 = σ1)
  ∧ (let σ1 := output_enum_values enum_level "enum.json" state_after_A in
     output_files σ1
     = <[ "enum.json" := [] ++ [enum_fact enum_level] ]>
         {[ "rel.json" := [relation_fact "A" ["A"; "B"]] ]}
     ∧ output_enum_values enum_level "enum.json" σ1 = σ1)
  ∧ (∃ σ1 names,
       output_struct_relations ast_mutual (relations_fuel ast_mutual) 1
         "rel.json" "" state_after_A = Some σ1
       ∧ output_files σ1
         = <[ "rel.json" :=
                [relation_fact "A" ["A"; "B"]] ++ [relation_fact "B" names] ]>
             {[ "rel.json" := [relation_fact "A" ["A"; "B"]] ]}
       ∧ output_struct_relations ast_mutual (relations_fuel ast_mutual) 1
           "rel.json" "" σ1 = Some σ1).
Proof.
  assert (∀ key_name : string,
            key_name ≠ "/src/types.h:2+A+rel.json" →
            key_name ∉ existing_filenames state_after_A) as Hfresh.
  { intros key_name Hne Hin. simpl in Hin.
    by apply elem_of_singleton in Hin. }
  assert (∀ name : string, name ∉ unopenable state_after_A) as Hopen.
  { intros name Hin. by apply not_elem_of_empty in Hin. }
  destruct emitting_twice_appends_once as (Hdecl & Henum & Hrel).
  split; [|split].
  - apply (Hdecl (declared "f" 5 "int f(void);") (declared "f" 5 "int f(void);")
             "rel.json" false true "" state_after_A);
      [reflexivity|reflexivity| |apply Hopen|reflexivity].
    apply Hfresh. discriminate.
  - apply (Henum enum_level enum_level "enum.json" state_after_A);
      [reflexivity|reflexivity|discriminate| |apply Hopen|reflexivity].
    apply Hfresh. discriminate.
  - apply (Hrel ast_mutual (relations_fuel ast_mutual) 1 "rel.json" ""
             state_after_A);
      [discriminate| |apply le_n|apply Hopen|reflexivity
      |apply ast_mutual_names_valid].
    apply Hfresh. discriminate.
Defined.

(** C10.  [output_decl] has no guard on the name: for a declaration whose
    name is the empty string and whose key is not in the registry, the call
    puts the key in the registry and, where the output file can be opened
    and the fact can be dumped, appends to the output file a fact whose
    ["name"] member is the empty string. *)
Theorem output_decl_emits_empty_name (decl : NamedDecl)
    (output_file_name : string) (is_typedef : bool) (alias_name : string)
    (σ : State) :
  getNameAsString decl = "" →
  let key_name :=
    decl_key (filenameWithLine (getBeginLoc decl)) "" output_file_name
      alias_name in
  key_name ∉ existing_filenames σ →
  output_file_name ∉ unopenable σ →
  dump_ok (decl_fact decl is_typedef alias_name) = true →
  let σ1 := output_decl decl output_file_name is_typedef alias_name σ in
  existing_filenames σ1 = {[key_name]} ∪ existing_filenames σ
  ∧ output_files σ1
    = <[output_file_name :=
          default [] (output_files σ !! output_file_name)
          ++ [decl_fact decl is_typedef alias_name]]>
        (output_files σ)
  ∧ json_get "name" (decl_fact decl is_typedef alias_name)
    = Some (json_string "").
Proof.
  intros Hname key_name Hkey Hopen Hdump σ1. subst σ1.
  rewrite output_decl_fresh by (rewrite Hname; exact Hkey).
  rewrite Hname. fold key_name. split; [|split].
  - rewrite write_line_keys. simpl. by rewrite open_app_keys.
  - by apply output_files_appended.
  - unfold decl_fact. rewrite Hname. by destruct is_typedef.
Qed.

Lemma output_decl_emits_empty_name_witness :
  let σ1 := output_decl (declared "" 9 "struct { int x; }") "decl.json" false ""
              state_after_A in
  existing_filenames σ1
  = {[ "/src/types.h:9++decl.json+" ]} ∪ {[ "/src/types.h:2+A+rel.json" ]}
  ∧ output_files σ1
    = <[ "decl.json" :=
           [] ++ [decl_fact (declared "" 9 "struct { int x; }") false ""] ]>
        {[ "rel.json" := [relation_fact "A" ["A"; "B"]] ]}
  ∧ json_get "name" (decl_fact (declared "" 9 "struct { int x; }") false "")
    = Some (json_string "").
Proof.
  apply (output_decl_emits_empty_name (declared "" 9 "struct { int x; }")
           "decl.json" false "" state_after_A); [reflexivity| | |reflexivity].
  - simpl. intros Hin. apply elem_of_singleton in Hin. discriminate Hin.
  - intros Hin. by apply not_elem_of_empty in Hin.
Defined.

(** * The registry and the files only grow: an instance *)

Lemma emitters_only_append_witness :
  extends state_after_A
    (write_line "rel.json" (relation_fact "B" ["A"; "B"])
       (claim "/src/types.h:3+B+rel.json" state_after_A))
  ∧ extends state_after_A
      (output_decl (declared "f" 5 "int f(void);") "rel.json" false ""
         state_after_A).
Proof.
  destruct emitters_only_append as (Hdecl & _ & Hrel).
  split.
  - apply (Hrel ast_mutual 4 1 "rel.json" "" state_after_A). reflexivity.
  - apply (Hdecl (declared "f" 5 "int f(void);") "rel.json" false ""
             state_after_A).
Defined.

Example state_after_A_grows :
  output_struct_relations ast_mutual 4 1 "rel.json" "" state_after_A
  = Some {| existing_filenames :=
              {[ "/src/types.h:3+B+rel.json" ]}
              ∪ {[ "/src/types.h:2+A+rel.json" ]};
            output_files :=
              {[ "rel.json" := [relation_fact "A" ["A"; "B"];
                                relation_fact "B" ["A"; "B"]] ]};
            unopenable := ∅ |}.
Proof. reflexivity. Qed.

(** * The declaration fact *)

(** X3.  The declaration fact of a first emission has the members ["name"],
    ["source"] and ["filename"], with the name, the text [get_decl_code]
    gives and the location string, and a member ["alias"] exactly when
    [is_typedef] is set; it is appended to the output file where the file
    can be opened and the fact can be dumped. *)
Theorem declaration_fact_members (decl : NamedDecl) (output_file_name : string)
    (is_typedef : bool) (alias_name : string) (σ : State) :
  decl_key (filenameWithLine (getBeginLoc decl)) (getNameAsString decl)
    output_file_name alias_name ∉ existing_filenames σ →
  output_file_name ∉ unopenable σ →
  dump_ok (decl_fact decl is_typedef alias_name) = true →
  ∃ j, output_files (output_decl decl output_file_name is_typedef alias_name σ)
       = <[output_file_name :=
             default [] (output_files σ !! output_file_name) ++ [j]]>
           (output_files σ)
       ∧ json_get "name" j = Some (json_string (getNameAsString decl))
       ∧ json_get "source" j = Some (json_string (get_decl_code decl))
       ∧ json_get "filename" j
         = Some (json_string (filenameWithLine (getBeginLoc decl)))
       ∧ json_get "alias" j
         = (if is_typedef then Some (json_string alias_name) else None).
Proof.
  intros Hkey Hopen Hdump. exists (decl_fact decl is_typedef alias_name).
  rewrite output_decl_fresh by exact Hkey.
  split; [by apply output_files_appended|].
  unfold decl_fact. repeat split; by destruct is_typedef.
Qed.

Lemma declaration_fact_members_witness :
  ∃ j, output_files (output_decl (declared "Bar" 2 "typedef struct Foo Bar")
                       "rel.json" true "Bar" state_after_A)
       = <[ "rel.json" := [relation_fact "A" ["A"; "B"]] ++ [j] ]>
           {[ "rel.json" := [relation_fact "A" ["A"; "B"]] ]}
       ∧ json_get "name" j = Some (json_string "Bar")
       ∧ json_get "source" j = Some (json_string "typedef struct Foo Bar")
       ∧ json_get "filename" j = Some (json_string "/src/types.h:2")
       ∧ json_get "alias" j = Some (json_string "Bar").
Proof.
  apply (declaration_fact_members (declared "Bar" 2 "typedef struct Foo Bar")
           "rel.json" true "Bar" state_after_A); [| |reflexivity].
  - simpl. intros Hin. apply elem_of_singleton in Hin. discriminate Hin.
  - intros Hin. by apply not_elem_of_empty in Hin.
Defined.

(** X11.  A declaration without source text is emitted all the same: when
    its begin or end location is invalid, or the lexer rejects its range,
    [get_decl_code] gives the empty string and the first call of
    [output_decl], where the output file can be opened and the fact can be
    dumped, appends a fact whose ["source"] member is the empty string. *)
Theorem missing_source_text_is_empty (decl : NamedDecl)
    (output_file_name : string) (is_typedef : bool) (alias_name : string)
    (σ : State) :
  isInvalid (getBeginLoc decl) = true ∨ isInvalid (getEndLoc decl) = true
  ∨ getSourceText decl = None →
  decl_key (filenameWithLine (getBeginLoc decl)) (getNameAsString decl)
    output_file_name alias_name ∉ existing_filenames σ →
  output_file_name ∉ unopenable σ →
  dump_ok (decl_fact decl is_typedef alias_name) = true →
  get_decl_code decl = ""
  ∧ ∃ j, output_files (output_decl decl output_file_name is_typedef alias_name σ)
         = <[output_file_name :=
               default [] (output_files σ !! output_file_name) ++ [j]]>
             (output_files σ)
         ∧ json_get "source" j = Some (json_string "")
         ∧ json_get "name" j = Some (json_string (getNameAsString decl)).
Proof.
  intros Hinvalid Hkey Hopen Hdump.
  assert (get_decl_code decl = "") as Hcode.
  { unfold get_decl_code.
    destruct Hinvalid as [-> | [-> | ->]]; simpl;
      [reflexivity|by rewrite andb_false_r|by destruct (_ && _)]. }
  split; [exact Hcode|]. exists (decl_fact decl is_typedef alias_name).
  rewrite output_decl_fresh by exact Hkey.
  split; [by apply output_files_appended|].
  unfold decl_fact. rewrite Hcode. by destruct is_typedef.
Qed.

Lemma missing_source_text_is_empty_witness :
  get_decl_code decl_without_text = ""
  ∧ ∃ j, output_files (output_decl decl_without_text "rel.json" false ""
                         state_after_A)
         = <[ "rel.json" := [relation_fact "A" ["A"; "B"]] ++ [j] ]>
             {[ "rel.json" := [relation_fact "A" ["A"; "B"]] ]}
         ∧ json_get "source" j = Some (json_string "")
         ∧ json_get "name" j = Some (json_string "f").
Proof.
  apply (missing_source_text_is_empty decl_without_text "rel.json" false ""
           state_after_A); [| | |reflexivity].
  - right. left. reflexivity.
  - simpl. intros Hin. apply elem_of_singleton in Hin. discriminate Hin.
  - intros Hin. by apply not_elem_of_empty in Hin.
Defined.

(** * Lines and keys *)











(** * A write that fails *)

Lemma open_app_lines (name file : string) (σ : State) :
  default [] (output_files (open_app name σ) !! file)
  = default [] (output_files σ !! file).
Proof.
  destruct (decide (name ∈ unopenable σ)) as [Hfail|Hopen].
  - by rewrite open_app_fail.
  - rewrite open_app_ok by done. simpl.
    destruct (decide (name = file)) as [->|Hne].
    + by rewrite lookup_insert_eq.
    + by rewrite lookup_insert_ne.
Qed.

Lemma write_after_failed_open (name key_name : string) (j : json) (σ : State) :
  name ∈ unopenable σ →
  write_line name j (claim key_name σ) = claim key_name σ.
Proof. intros Hfail. by apply write_line_fail. Qed.

(** X13.  A fact whose file cannot be opened is lost for the run.  The
    emitters claim the key before the write and never test the stream: a
    call on a key that is not claimed, with an output file that cannot be
    opened, puts the key in the registry and changes no file; the same call
    made again is then suppressed, also when the file can be opened by then,
    so that the fact is never written. *)
Theorem failed_open_loses_fact :
  (∀ (decl : NamedDecl) (output_file_name : string) (is_typedef : bool)
     (alias_name : string) (σ : State) (later : gset string),
     let key_name :=
       decl_key (filenameWithLine (getBeginLoc decl)) (getNameAsString decl)
         output_file_name alias_name in
     key_name ∉ existing_filenames σ →
     output_file_name ∈ unopenable σ →
     let σ1 := output_decl decl output_file_name is_typedef alias_name σ in
     let σ2 :=
       output_decl decl output_file_name is_typedef alias_name
         (with_unopenable later σ1) in
     σ1 = claim key_name σ
     ∧ existing_filenames σ2 = {[key_name]} ∪ existing_filenames σ
     ∧ ∀ file : string,
         default [] (output_files σ2 !! file)
         = default [] (output_files σ !! file))
  ∧ (∀ (decl : EnumDecl) (output_file_name : string) (σ : State)
       (later : gset string),
       let key_name :=
         fact_key (filenameWithLine (getBeginLoc decl)) (getNameAsString decl)
           output_file_name in
       getNameAsString decl ≠ "" →
       key_name ∉ existing_filenames σ →
       output_file_name ∈ unopenable σ →
       let σ1 := output_enum_values decl output_file_name σ in
       σ1 = claim key_name σ
       ∧ output_enum_values decl output_file_name (with_unopenable later σ1)
         = with_unopenable later σ1)
  ∧ (∀ (ast : AST) (fuel fuel' : nat) (decl : nat)
       (output_file_name struct_name : string) (σ : State)
       (later : gset string),
       let rd : RecordDecl := ast !!! decl in
       let structName := resolve_structName rd struct_name in
       let key_name :=
         fact_key (filenameWithLine (getBeginLoc rd)) structName
           output_file_name in
       structName ≠ "" →
       key_name ∉ existing_filenames σ →
       output_file_name ∈ unopenable σ →
       relations_fuel ast ≤ fuel →
       output_struct_relations ast fuel decl output_file_name struct_name σ
       = Some (claim key_name σ)
       ∧ output_struct_relations ast fuel' decl output_file_name struct_name
           (with_unopenable later (claim key_name σ))
         = Some (with_unopenable later (claim key_name σ))).
Proof.
  split; [|split].
  - intros decl out t alias σ later key_name Hkey Hfail σ1 σ2.
    assert (σ1 = claim key_name σ) as Hσ1.
    { subst σ1. rewrite (output_decl_fresh decl out t alias σ Hkey).
      fold key_name. rewrite (open_app_fail out σ Hfail).
      by apply write_after_failed_open. }
    split; [exact Hσ1|]. subst σ2. rewrite Hσ1.
    rewrite output_decl_claimed by (fold key_name; simpl; set_solver).
    split; [by rewrite open_app_keys|].
    intros file. by rewrite open_app_lines.
  - intros decl out σ later key_name Hname Hkey Hfail σ1.
    assert (σ1 = claim key_name σ) as Hσ1.
    { subst σ1. rewrite (output_enum_values_fresh decl out σ Hname Hkey).
      by apply write_after_failed_open. }
    split; [exact Hσ1|]. rewrite Hσ1.
    apply output_enum_values_claimed. fold key_name. simpl. set_solver.
  - intros ast fuel fuel' decl out sname σ later rd structName key_name
      Hname Hkey Hfail Hfuel. split.
    + destruct (output_struct_relations_fresh ast fuel decl out sname σ
                  Hname Hkey Hfuel) as (w & _ & _ & ->).
      fold rd structName key_name. f_equal.
      by apply write_after_failed_open.
    + apply output_struct_relations_claimed. fold rd structName key_name.
      simpl. set_solver.
Qed.

Lemma failed_open_loses_fact_witness :
  let decl := declared "f" 5 "int f(void);" in
  let key_name := "/src/types.h:5+f+no_such_dir/decl.json+" in
  let σ1 := output_decl decl "no_such_dir/decl.json" false "" state_no_dir in
  let σ2 := output_decl decl "no_such_dir/decl.json" false ""
              (with_unopenable ∅ σ1) in
  σ1 = claim key_name state_no_dir
  ∧ existing_filenames σ2
    = {[key_name]} ∪ {[ "/src/types.h:2+A+rel.json" ]}
  ∧ ∀ file : string,
      default [] (output_files σ2 !! file)
      = default [] (output_files state_no_dir !! file).
Proof.
  destruct failed_open_loses_fact as (Hdecl & _ & _).
  apply (Hdecl (declared "f" 5 "int f(void);") "no_such_dir/decl.json" false
           "" state_no_dir ∅).
  - simpl. intros Hin. apply elem_of_singleton in Hin. discriminate Hin.
  - simpl. by apply elem_of_singleton.
Defined.

(** After the failed call the file is still missing; once the directory
    exists the repeated call creates it, empty. *)
Example failed_open_then_created :
  let decl := declared "f" 5 "int f(void);" in
  let σ1 := output_decl decl "no_such_dir/decl.json" false "" state_no_dir in
  output_files σ1 !! "no_such_dir/decl.json" = None
  ∧ output_files
      (output_decl decl "no_such_dir/decl.json" false ""
         (with_unopenable ∅ σ1)) !! "no_such_dir/decl.json"
    = Some [].
Proof. split; reflexivity. Qed.

(** A declaration whose text is not valid UTF-8: [dump] throws after the
    key has been claimed and the file opened, and no line is written. *)
Example undumpable_fact_writes_no_line :
  dump_ok (decl_fact decl_latin1 false "") = false
  ∧ output_decl decl_latin1 "decl.json" false "" state_after_A
    = {| existing_filenames :=
           {[ "/src/types.h:13+caf+decl.json+" ]}
           ∪ {[ "/src/types.h:2+A+rel.json" ]};
         output_files :=
           <[ "decl.json" := [] ]>
             {[ "rel.json" := [relation_fact "A" ["A"; "B"]] ]};
         unopenable := ∅ |}.
Proof. split; reflexivity. Qed.
